(** * TeamFlow websocket relay: connection registry, room indexes and broadcast

    A shallow embedding of [mini-services/websocket-service/index.ts] and the
    properties of its room membership, fan-out and error handling. *)

From Stdlib Require Import ZArith ssreflect.
From stdpp Require Import gmap strings pretty list fin_maps.

Open Scope general_if_scope.
#[local] Set Warnings "-rewrite-rw,-clear-no-such-hyp".
#[local] Set Default Proof Using "Type".
Open Scope list_scope.

(** ** JavaScript values

    The values the relay touches are JSON-shaped trees plus [undefined].
    Numbers are only passed through, counted ([Set.size]) or read from the
    clock ([Date.now()]), so integers stand for them. An object is the list of
    its own enumerable properties in insertion order. *)
Module JS.

#[local] Set Warnings "-register-all".

Inductive value :=
| undefined
| null
| boolean (b : bool)
| number (n : Z)
| str (s : string)
| array (elems : list value)
| object (props : list (string * value)).

Definition props := list (string * value).

(** [o[k]] on the own properties of an object; a missing property reads as
    [undefined]. *)
Fixpoint lookup_prop (k : string) (ps : props) : value :=
  match ps with
  | [] => undefined
  | (k', v) :: ps' => if decide (k' = k) then v else lookup_prop k ps'
  end.

(** [o[k] = v]: an existing property keeps its position, a new one goes last. *)
Fixpoint set_prop (k : string) (v : value) (ps : props) : props :=
  match ps with
  | [] => [(k, v)]
  | (k', v') :: ps' =>
      if decide (k' = k) then (k, v) :: ps' else (k', v') :: set_prop k v ps'
  end.

(** [v.k] for the property names the relay reads ([type], [payload],
    [workspaceId], [boardId]), none of which a string, number, boolean or
    array has. [None] is the TypeError of reading a property of [undefined]
    or [null]. *)
Definition get (v : value) (k : string) : option value :=
  match v with
  | undefined | null => None
  | object ps => Some (lookup_prop k ps)
  | _ => Some undefined
  end.

(** A string is the UTF-8 text of a JavaScript string, whose elements are
    UTF-16 code units. A code unit below 0x0800 is the one or two bytes of
    its character, one from 0x0800 up is three bytes, and a character beyond
    0xFFFF, four bytes of text, is two surrogate code units, each written in
    the three bytes of its own number. *)
Definition three_bytes (u : N) : string :=
  String.string_of_list_ascii
    [Ascii.ascii_of_N (0xE0 + N.shiftr u 12);
     Ascii.ascii_of_N (0x80 + N.land (N.shiftr u 6) 0x3F);
     Ascii.ascii_of_N (0x80 + N.land u 0x3F)].

(** The code units of a text, by the lead byte of each character. Text is
    well-formed UTF-8, which is what [data.toString()] and [JSON.parse] give;
    on other bytes the result stands for nothing in the source. *)
Fixpoint code_units (bs : list Ascii.ascii) : list string :=
  match bs with
  | [] => []
  | b0 :: bs1 =>
      if (Ascii.N_of_ascii b0 <? 0xC0)%N then String.string_of_list_ascii [b0] :: code_units bs1
      else
        match bs1 with
        | [] => [String.string_of_list_ascii bs]
        | b1 :: bs2 =>
            if (Ascii.N_of_ascii b0 <? 0xE0)%N
            then String.string_of_list_ascii [b0; b1] :: code_units bs2
            else
              match bs2 with
              | [] => [String.string_of_list_ascii bs]
              | b2 :: bs3 =>
                  if (Ascii.N_of_ascii b0 <? 0xF0)%N
                  then String.string_of_list_ascii [b0; b1; b2] :: code_units bs3
                  else
                    match bs3 with
                    | [] => [String.string_of_list_ascii bs]
                    | b3 :: bs4 =>
                        let cp := (N.shiftl (N.land (Ascii.N_of_ascii b0) 0x07) 18
                                   + N.shiftl (N.land (Ascii.N_of_ascii b1) 0x3F) 12
                                   + N.shiftl (N.land (Ascii.N_of_ascii b2) 0x3F) 6
                                   + N.land (Ascii.N_of_ascii b3) 0x3F)%N in
                        let v := (cp - 0x10000)%N in
                        three_bytes (0xD800 + N.shiftr v 10)
                        :: three_bytes (0xDC00 + N.land v 0x3FF)
                        :: code_units bs4
                    end
              end
        end
  end.

(** [[...s]]: the code units of a string, each a string of its own. *)
Definition chars (s : string) : list string :=
  code_units (String.list_ascii_of_string s).

(** The own enumerable properties an object spread [{...v}] copies: those of
    an object, the indexed elements of an array or of a string, nothing for
    the other primitives. *)
Definition own_props (v : value) : props :=
  match v with
  | object ps => ps
  | array es => imap (λ i e, (pretty i, e)) es
  | str s => imap (λ i c, (pretty i, str c)) (chars s)
  | _ => []
  end.

(** [{...into, ...v}] *)
Definition spread (into : props) (v : value) : props :=
  foldl (λ acc kv, set_prop kv.1 kv.2 acc) into (own_props v).

Definition of_option (o : option string) : value :=
  match o with
  | Some s => str s
  | None => undefined
  end.

(** [JSON.stringify], as the tree that the text denotes: a property whose
    value is [undefined] is left out, an [undefined] array element is written
    [null]. *)
Definition strip (f : value → value) : props → props :=
  fix go (ps : props) : props :=
    match ps with
    | [] => []
    | (k, undefined) :: ps' => go ps'
    | (k, e) :: ps' => (k, f e) :: go ps'
    end.

Fixpoint JSON_stringify (v : value) : value :=
  match v with
  | array es =>
      array (map (λ e, match e with
                       | undefined => null
                       | _ => JSON_stringify e
                       end) es)
  | object ps => object (strip JSON_stringify ps)
  | _ => v
  end.

Definition mk_message (type : string) (payload : props) : value :=
  object [("type", str type); ("payload", object payload)].

End JS.
Import JS.

(** ** Data model *)

Inductive ReadyState := CONNECTING | OPEN | CLOSING | CLOSED.

Global Instance ReadyState_eq_dec : EqDecision ReadyState.
Proof. solve_decision. Defined.

(** The socket of a connection. The relay reads only its [readyState], which
    the transport changes on its own. *)
Module WebSocket.
Record t := { readyState : ReadyState }.
End WebSocket.
Abbreviation WebSocket := WebSocket.t.

Module Client.
Record t := {
  id : string;
  ws : WebSocket;
  userId : option string;
  workspaceId : option string;
  boardId : option string;
}.

Definition with_workspaceId (w : option string) (c : t) : t :=
  {| id := id c; ws := ws c; userId := userId c; workspaceId := w; boardId := boardId c |}.

Definition with_boardId (b : option string) (c : t) : t :=
  {| id := id c; ws := ws c; userId := userId c; workspaceId := workspaceId c; boardId := b |}.

Definition with_ws (s : WebSocket) (c : t) : t :=
  {| id := id c; ws := s; userId := userId c; workspaceId := workspaceId c; boardId := boardId c |}.
End Client.
Abbreviation Client := Client.t.

(** The three global maps. A [Set<string>] of client ids is a [gset]: the
    order in which [forEach] visits it is not modelled. The registry maps an
    id to the client object itself; the same object is the [client] captured
    by the listeners of its connection. *)
Record State := {
  clients : gmap string Client;
  workspaceClients : gmap string (gset string);
  boardClients : gmap string (gset string);
}.

(** What a handler does to the outside: a call of [ws.send] on the socket of
    the client with the given id, and a line of console output (the text
    before the first interpolated object). *)
Inductive Effect :=
| send (to : string) (data : value)
| log (line : string).

Definition init : State :=
  {| clients := ∅; workspaceClients := ∅; boardClients := ∅ |}.

Definition set_clients (f : gmap string Client → gmap string Client) (st : State) : State :=
  {| clients := f (clients st);
     workspaceClients := workspaceClients st;
     boardClients := boardClients st |}.

Definition set_workspaceClients
    (f : gmap string (gset string) → gmap string (gset string)) (st : State) : State :=
  {| clients := clients st;
     workspaceClients := f (workspaceClients st);
     boardClients := boardClients st |}.

Definition set_boardClients
    (f : gmap string (gset string) → gmap string (gset string)) (st : State) : State :=
  {| clients := clients st;
     workspaceClients := workspaceClients st;
     boardClients := f (boardClients st) |}.

(** ** Broadcast engine *)

(** The body of the [forEach] callback of both broadcast functions. *)
Definition deliver (st : State) (messageStr : value) (excludeClientId : option string)
    (out : list Effect) (clientId : string) : list Effect :=
  if bool_decide (Some clientId ≠ excludeClientId) then
    match clients st !! clientId with
    | Some client =>
        if decide (WebSocket.readyState (Client.ws client) = OPEN)
        then out ++ [send (Client.id client) messageStr]
        else out
    | None => out
    end
  else out.

Definition broadcastToWorkspace (st : State) (workspaceId : string) (message : value)
    (excludeClientId : option string) : list Effect :=
  match workspaceClients st !! workspaceId with
  | None => []
  | Some wsClients =>
      let messageStr := JSON_stringify message in
      foldl (deliver st messageStr excludeClientId) [] (elements wsClients)
  end.

Definition broadcastToBoard (st : State) (boardId : string) (message : value)
    (excludeClientId : option string) : list Effect :=
  match boardClients st !! boardId with
  | None => []
  | Some bdClients =>
      let messageStr := JSON_stringify message in
      foldl (deliver st messageStr excludeClientId) [] (elements bdClients)
  end.

(** ** Lifecycle handlers

    A handler that assigns to a field of [client] changes the object the
    registry holds under [client.id]; [alter] writes it there. *)

Definition handleJoinWorkspace (client : Client) (workspaceId : string) (st : State)
    : State * list Effect :=
  (* Remove from previous workspace *)
  let st :=
    match Client.workspaceId client with
    | Some prev =>
        if bool_decide (prev ≠ "") then
          match workspaceClients st !! prev with
          | Some prevClients =>
              let prevClients := prevClients ∖ {[Client.id client]} in
              if decide (size prevClients = 0)
              then set_workspaceClients (delete prev) st
              else set_workspaceClients <[prev := prevClients]> st
          | None => st
          end
        else st
    | None => st
    end in
  (* Add to new workspace *)
  let client := Client.with_workspaceId (Some workspaceId) client in
  let st := set_clients (alter (λ _, client) (Client.id client)) st in
  let st :=
    match workspaceClients st !! workspaceId with
    | None => set_workspaceClients <[workspaceId := ∅]> st
    | Some _ => st
    end in
  let st := set_workspaceClients (alter (λ s, s ∪ {[Client.id client]}) workspaceId) st in
  (* Notify other clients in workspace *)
  let out :=
    broadcastToWorkspace st workspaceId
      (mk_message "user_joined"
         [("userId", of_option (Client.userId client)); ("workspaceId", str workspaceId)])
      (Some (Client.id client)) in
  (* Send current workspace users count *)
  let workspaceUserCount :=
    match workspaceClients st !! workspaceId with
    | Some s => size s
    | None => 0
    end in
  (st, out ++ [send (Client.id client)
                 (JSON_stringify (mk_message "workspace_users"
                    [("count", number (Z.of_nat workspaceUserCount))]))]).

Definition handleJoinBoard (client : Client) (boardId : string) (st : State)
    : State * list Effect :=
  (* Remove from previous board *)
  let st :=
    match Client.boardId client with
    | Some prev =>
        if bool_decide (prev ≠ "") then
          match boardClients st !! prev with
          | Some prevClients =>
              let prevClients := prevClients ∖ {[Client.id client]} in
              if decide (size prevClients = 0)
              then set_boardClients (delete prev) st
              else set_boardClients <[prev := prevClients]> st
          | None => st
          end
        else st
    | None => st
    end in
  (* Add to new board *)
  let client := Client.with_boardId (Some boardId) client in
  let st := set_clients (alter (λ _, client) (Client.id client)) st in
  let st :=
    match boardClients st !! boardId with
    | None => set_boardClients <[boardId := ∅]> st
    | Some _ => st
    end in
  let st := set_boardClients (alter (λ s, s ∪ {[Client.id client]}) boardId) st in
  (* Notify other clients in board *)
  let out :=
    broadcastToBoard st boardId
      (mk_message "user_joined_board"
         [("userId", of_option (Client.userId client)); ("boardId", str boardId)])
      (Some (Client.id client)) in
  (* Send current board users count *)
  let boardUserCount :=
    match boardClients st !! boardId with
    | Some s => size s
    | None => 0
    end in
  (st, out ++ [send (Client.id client)
                 (JSON_stringify (mk_message "board_users"
                    [("count", number (Z.of_nat boardUserCount))]))]).

(** ** Event handlers; [now] is the reading of [Date.now()]. *)

Definition handleCardMoved (client : Client) (payload : value) (now : Z) (st : State)
    : State * list Effect :=
  match Client.boardId client with
  | Some boardId =>
      if bool_decide (boardId ≠ "") then
        (st, broadcastToBoard st boardId
               (mk_message "card_moved"
                  (set_prop "timestamp" (number now)
                     (set_prop "movedBy" (of_option (Client.userId client))
                        (spread [] payload))))
               None)
      else (st, [])
  | None => (st, [])
  end.

Definition handleCardCreated (client : Client) (payload : value) (now : Z) (st : State)
    : State * list Effect :=
  match Client.boardId client with
  | Some boardId =>
      if bool_decide (boardId ≠ "") then
        (st, broadcastToBoard st boardId
               (mk_message "card_created"
                  (set_prop "timestamp" (number now)
                     (set_prop "createdBy" (of_option (Client.userId client))
                        (spread [] payload))))
               None)
      else (st, [])
  | None => (st, [])
  end.

Definition handleUserTyping (client : Client) (payload : value) (st : State)
    : State * list Effect :=
  match Client.boardId client with
  | Some boardId =>
      if bool_decide (boardId ≠ "") then
        (st, broadcastToBoard st boardId
               (mk_message "user_typing"
                  (spread [("userId", of_option (Client.userId client))] payload))
               (Some (Client.id client)))
      else (st, [])
  | None => (st, [])
  end.

Definition handleCursorMove (client : Client) (payload : value) (st : State)
    : State * list Effect :=
  match Client.boardId client with
  | Some boardId =>
      if bool_decide (boardId ≠ "") then
        (st, broadcastToBoard st boardId
               (mk_message "cursor_move"
                  (spread [("userId", of_option (Client.userId client))] payload))
               (Some (Client.id client)))
      else (st, [])
  | None => (st, [])
  end.

Definition handleDisconnect (client : Client) (st : State) : State * list Effect :=
  (* Remove from workspace *)
  let '(st, out1) :=
    match Client.workspaceId client with
    | Some workspaceId =>
        if bool_decide (workspaceId ≠ "") then
          match workspaceClients st !! workspaceId with
          | Some wsClients =>
              let wsClients := wsClients ∖ {[Client.id client]} in
              if decide (size wsClients = 0)
              then (set_workspaceClients (delete workspaceId) st, [])
              else
                let st := set_workspaceClients <[workspaceId := wsClients]> st in
                (* Notify other clients *)
                (st, broadcastToWorkspace st workspaceId
                       (mk_message "user_left"
                          [("userId", of_option (Client.userId client));
                           ("workspaceId", str workspaceId)])
                       None)
          | None => (st, [])
          end
        else (st, [])
    | None => (st, [])
    end in
  (* Remove from board *)
  let '(st, out2) :=
    match Client.boardId client with
    | Some boardId =>
        if bool_decide (boardId ≠ "") then
          match boardClients st !! boardId with
          | Some bdClients =>
              let bdClients := bdClients ∖ {[Client.id client]} in
              if decide (size bdClients = 0)
              then (set_boardClients (delete boardId) st, [])
              else
                let st := set_boardClients <[boardId := bdClients]> st in
                (* Notify other clients *)
                (st, broadcastToBoard st boardId
                       (mk_message "user_left_board"
                          [("userId", of_option (Client.userId client));
                           ("boardId", str boardId)])
                       None)
          | None => (st, [])
          end
        else (st, [])
    | None => (st, [])
    end in
  (set_clients (delete (Client.id client)) st, out1 ++ out2).

(** ** Message router *)

(** How a call made inside the listener's [try] block ends. Every [throw]
    of [handleMessage] happens while it reads [message.type] or
    [message.payload.workspaceId], before any map is touched, so [thrown]
    carries no state. [untyped] is a join whose room id is not a string:
    [handleJoinWorkspace] and [handleJoinBoard] declare [string], the maps
    here are keyed by strings, and such a call has no transition. What is
    said of all runs of [step] is said of the runs without such a frame
    ([string_joins] below). *)
Inductive completion :=
| returned (r : State * list Effect)
| thrown
| untyped.

Definition handleMessage (client : Client) (message : value) (now : Z) (st : State)
    : completion :=
  match get message "type" with
  | None => thrown
  | Some (str type) =>
      if decide (type = "join_workspace") then
        match get message "payload" ≫= λ payload, get payload "workspaceId" with
        | None => thrown
        | Some (str workspaceId) => returned (handleJoinWorkspace client workspaceId st)
        | Some _ => untyped
        end
      else if decide (type = "join_board") then
        match get message "payload" ≫= λ payload, get payload "boardId" with
        | None => thrown
        | Some (str boardId) => returned (handleJoinBoard client boardId st)
        | Some _ => untyped
        end
      else if decide (type = "card_moved") then
        returned (handleCardMoved client (default undefined (get message "payload")) now st)
      else if decide (type = "card_created") then
        returned (handleCardCreated client (default undefined (get message "payload")) now st)
      else if decide (type = "user_typing") then
        returned (handleUserTyping client (default undefined (get message "payload")) st)
      else if decide (type = "cursor_move") then
        returned (handleCursorMove client (default undefined (get message "payload")) st)
      else returned (st, [log "Unknown message type:"])
  | Some _ => returned (st, [log "Unknown message type:"])
  end.

(** ** Connection listeners *)

(** [wss.on('connection')]: [clientId] is the result of [uuidv4()]. *)
Definition on_connection (clientId : string) (ws : WebSocket) (st : State)
    : State * list Effect :=
  let client :=
    {| Client.id := clientId; Client.ws := ws; Client.userId := None;
       Client.workspaceId := None; Client.boardId := None |} in
  (set_clients <[clientId := client]> st,
   [log ("Client connected: " +:+ clientId);
    send clientId (JSON_stringify (mk_message "connected" [("clientId", str clientId)]))]).

(** [ws.on('message')]: [data] is what [JSON.parse(data.toString())] makes of
    the frame, [None] when it throws. *)
Definition on_message (client : Client) (data : option value) (now : Z) (st : State)
    : option (State * list Effect) :=
  match data with
  | None => Some (st, [log "Invalid message format:"])
  | Some message =>
      match handleMessage client message now st with
      | returned r => Some r
      | thrown => Some (st, [log "Invalid message format:"])
      | untyped => None
      end
  end.

(** [ws.on('close')] *)
Definition on_close (client : Client) (st : State) : State * list Effect :=
  let '(st, out) := handleDisconnect client st in
  (st, log ("Client disconnected: " +:+ Client.id client) :: out).

(** [ws.on('error')] *)
Definition on_error (client : Client) (st : State) : State * list Effect :=
  (st, [log ("WebSocket error for client " +:+ Client.id client +:+ ":")]).

(** ** Runs of the relay

    The events of the server: the four listener calls, and the transport of a
    connection leaving the OPEN state on its own. A listener belongs to a
    registered connection: [ws] emits nothing for a socket after its [close]
    event, a new socket is OPEN, and [uuidv4()] returns an id not in use. *)
Inductive Event :=
| connection (clientId : string) (ws : WebSocket)
| message (clientId : string) (data : option value) (now : Z)
| close (clientId : string)
| error (clientId : string)
| transport (clientId : string) (rs : ReadyState).

Definition step (ev : Event) (st : State) : option (State * list Effect) :=
  match ev with
  | connection clientId ws =>
      match clients st !! clientId with
      | None =>
          if decide (WebSocket.readyState ws = OPEN)
          then Some (on_connection clientId ws st)
          else None
      | Some _ => None
      end
  | message clientId data now =>
      clients st !! clientId ≫= λ client, on_message client data now st
  | close clientId =>
      clients st !! clientId ≫= λ client, Some (on_close client st)
  | error clientId =>
      clients st !! clientId ≫= λ client, Some (on_error client st)
  | transport clientId rs =>
      clients st !! clientId ≫= λ client,
        if decide (rs = CLOSING ∨ rs = CLOSED)
        then Some (set_clients
                     <[clientId := Client.with_ws {| WebSocket.readyState := rs |} client]> st,
                   [])
        else None
  end.

Fixpoint run (evs : list Event) (st : State) : option (State * list Effect) :=
  match evs with
  | [] => Some (st, [])
  | ev :: evs' =>
      match step ev st with
      | Some (st', out) =>
          match run evs' st' with
          | Some (st'', out') => Some (st'', out ++ out')
          | None => None
          end
      | None => None
      end
  end.

Inductive reachable_by (P : Event → Prop) : State → Prop :=
| reachable_init : reachable_by P init
| reachable_step st ev st' out :
    reachable_by P st → P ev → step ev st = Some (st', out) → reachable_by P st'.

Definition reachable : State → Prop := reachable_by (λ _, True).

(** An event that names no empty room id. *)
Definition named_rooms (ev : Event) : Prop :=
  match ev with
  | message _ (Some m) _ =>
      (get m "payload" ≫= λ p, get p "workspaceId") ≠ Some (str "") ∧
      (get m "payload" ≫= λ p, get p "boardId") ≠ Some (str "")
  | _ => True
  end.

(** The room id of a join frame: [message.payload.workspaceId] or
    [message.payload.boardId], [None] when reading it throws. *)
Definition room_id (m : value) (field : string) : option value :=
  get m "payload" ≫= λ payload, get payload field.

(** An event whose join frame, if it is one, carries a string for its room
    id, as [handleJoinWorkspace] and [handleJoinBoard] declare. *)
Definition string_joins (ev : Event) : Prop :=
  match ev with
  | message _ (Some m) _ =>
      (get m "type" = Some (str "join_workspace") →
       ∀ v, room_id m "workspaceId" = Some v → ∃ W, v = str W) ∧
      (get m "type" = Some (str "join_board") →
       ∀ v, room_id m "boardId" = Some v → ∃ B, v = str B)
  | _ => True
  end.

(** The same, and the string is not empty. *)
Definition named_joins (ev : Event) : Prop :=
  match ev with
  | message _ (Some m) _ =>
      (get m "type" = Some (str "join_workspace") →
       ∀ v, room_id m "workspaceId" = Some v → ∃ W, v = str W ∧ W ≠ "") ∧
      (get m "type" = Some (str "join_board") →
       ∀ v, room_id m "boardId" = Some v → ∃ B, v = str B ∧ B ≠ "")
  | _ => True
  end.

(** What the socket of a connection emits when its transport fails: [ws]
    emits ['error'], destroys the socket, and ['close'] follows. *)
Definition transport_error (clientId : string) : list Event :=
  [error clientId; close clientId].

(** ** Envelopes of the client protocol *)

Definition envelope (type : string) (payload : props) : option value :=
  Some (mk_message type payload).

Definition join_workspace (workspaceId : string) : option value :=
  envelope "join_workspace" [("workspaceId", str workspaceId)].

Definition join_board (boardId : string) : option value :=
  envelope "join_board" [("boardId", str boardId)].

Definition open_socket : WebSocket := {| WebSocket.readyState := OPEN |}.

(** ** Room membership *)

Definition member (rooms : gmap string (gset string)) (room clientId : string) : Prop :=
  ∃ s, rooms !! room = Some s ∧ clientId ∈ s.

(** [clients.get(clientId)] is there and its socket is OPEN. *)
Definition is_open (st : State) (clientId : string) : Prop :=
  match clients st !! clientId with
  | Some c => WebSocket.readyState (Client.ws c) = OPEN
  | None => False
  end.

Global Instance is_open_dec st clientId : Decision (is_open st clientId).
Proof. unfold is_open. destruct (clients st !! clientId); apply _. Defined.

(** Every registry entry is filed under its own id. *)
Definition registry_ok (st : State) : Prop :=
  ∀ k c, clients st !! k = Some c → Client.id c = k.

(** The members a broadcast sends to, and the sends it makes. *)
Definition addressed (st : State) (excludeClientId : option string) (k : string) : Prop :=
  Some k ≠ excludeClientId ∧ is_open st k.

Definition fanout (st : State) (s : gset string) (excludeClientId : option string)
    (messageStr : value) : list Effect :=
  (λ k, send k messageStr) <$> filter (addressed st excludeClientId) (elements s).

(** The messages sent to [r], in order. *)
Definition inbox (r : string) (out : list Effect) : list value :=
  omap (λ e, match e with
             | send to data => if decide (to = r) then Some data else None
             | log _ => None
             end) out.

(** The members left in the room held in a connection's field [prev] once
    the connection is taken out; nobody when the field is unset or empty. *)
Definition remaining (rooms : gmap string (gset string)) (prev : option string)
    (clientId : string) : gset string :=
  match prev with
  | Some p => if bool_decide (p ≠ "") then default ∅ (rooms !! p) ∖ {[clientId]} else ∅
  | None => ∅
  end.

(** What the "remove from previous room" block of the three lifecycle
    handlers does to an index, and what the "add to new room" block does. *)
Definition leave_room (prev : option string) (clientId : string)
    (rooms : gmap string (gset string)) : gmap string (gset string) :=
  match prev with
  | Some p =>
      if bool_decide (p ≠ "") then
        match rooms !! p with
        | Some s =>
            if decide (size (s ∖ {[clientId]}) = 0)
            then delete p rooms
            else <[p := s ∖ {[clientId]}]> rooms
        | None => rooms
        end
      else rooms
  | None => rooms
  end.

Definition enter_room (room clientId : string) (rooms : gmap string (gset string))
    : gmap string (gset string) :=
  alter (λ s, s ∪ {[clientId]}) room
    match rooms !! room with
    | None => <[room := ∅]> rooms
    | Some _ => rooms
    end.

(** ** Vocabulary of the statements *)

(** One flavour of room: the connection→room field [field] and the
    room→members index [rooms] say the same, no room is empty, every member
    is registered and no connection holds the empty room id. *)
Record index_consistent (field : Client → option string)
    (rooms : gmap string (gset string)) (cls : gmap string Client) : Prop := {
  ic_field : ∀ k c R, cls !! k = Some c → field c = Some R ↔ member rooms R k;
  ic_nonempty : ∀ R s, rooms !! R = Some s → s ≠ ∅;
  ic_registered : ∀ R k, member rooms R k → is_Some (cls !! k);
  ic_named : ∀ k c, cls !! k = Some c → field c ≠ Some "";
}.

Record consistent (st : State) : Prop := {
  cons_registry : registry_ok st;
  cons_workspace : index_consistent Client.workspaceId (workspaceClients st) (clients st);
  cons_board : index_consistent Client.boardId (boardClients st) (clients st);
}.

(** The state the relay is in after the events [evs], from the start. *)
Definition after (evs : list Event) : State := (default (init, []) (run evs init)).1.

(** A connection that joins workspace [""] and then workspace ["w1"]. *)
Definition unnamed_then_w1 : list Event :=
  [connection "a" open_socket;
   message "a" (join_workspace "") 0;
   message "a" (join_workspace "w1") 0].

(** The two joins of C2, issued by connection [cid] in state [st]. *)
Definition join_twice (cid R1 R2 : string) : list Event :=
  [message cid (join_workspace R1) 0; message cid (join_workspace R2) 0].

(** C2 as the spec words it: after the two joins the connection is in
    exactly [R2], [R1]'s member set no longer holds it, and [R1] is not kept
    with an empty member set. *)
Definition leaves_first_room (st : State) (cid R1 R2 : string) : Prop :=
  ∀ st2 out, run (join_twice cid R1 R2) st = Some (st2, out) →
    (∀ W, member (workspaceClients st2) W cid ↔ W = R2) ∧
    ¬ member (workspaceClients st2) R1 cid ∧
    workspaceClients st2 !! R1 ≠ Some ∅.

Definition joined_workspace (client : Client) (W : string) : value :=
  JSON_stringify (mk_message "user_joined"
    [("userId", of_option (Client.userId client)); ("workspaceId", str W)]).

Definition joined_board (client : Client) (B : string) : value :=
  JSON_stringify (mk_message "user_joined_board"
    [("userId", of_option (Client.userId client)); ("boardId", str B)]).

Definition users_count (type : string) (n : nat) : value :=
  JSON_stringify (mk_message type [("count", number (Z.of_nat n))]).

(** C9 as the spec words it, for a join of workspace [W]: every other
    member of the room is sent something. *)
Definition notifies_every_other_member (st : State) (cid W : string) : Prop :=
  ∀ st' out, step (message cid (join_workspace W) 0) st = Some (st', out) →
    ∀ r, member (workspaceClients st') W r → r ≠ cid → inbox r out ≠ [].

Definition fresh_client (clientId : string) : Client :=
  {| Client.id := clientId; Client.ws := open_socket; Client.userId := None;
     Client.workspaceId := None; Client.boardId := None |}.

(** C3 as the spec words it: the second [join_board(B)] of connection [cid]
    keeps the size of [B]'s member set and sends no other connection a
    (second) notification. *)
Definition rejoin_is_silent (st : State) (cid B : string) : Prop :=
  ∀ st1 out1 st2 out2,
    step (message cid (join_board B) 0) st = Some (st1, out1) →
    step (message cid (join_board B) 0) st1 = Some (st2, out2) →
    size (default ∅ (boardClients st2 !! B)) = size (default ∅ (boardClients st1 !! B)) ∧
    ∀ r, r ≠ cid → inbox r out2 = [].

Definition known_types : list string :=
  ["join_workspace"; "join_board"; "card_moved"; "card_created"; "user_typing"; "cursor_move"].

Definition board_events : list string :=
  ["card_moved"; "card_created"; "user_typing"; "cursor_move"].

(** The state after ["a"] has joined the board with the empty id. *)
Definition in_unnamed_board : State :=
  after [connection "a" open_socket; message "a" (join_board "") 0].

Definition left_workspace (client : Client) : value :=
  JSON_stringify (mk_message "user_left"
    [("userId", of_option (Client.userId client));
     ("workspaceId", of_option (Client.workspaceId client))]).

Definition left_board (client : Client) : value :=
  JSON_stringify (mk_message "user_left_board"
    [("userId", of_option (Client.userId client));
     ("boardId", of_option (Client.boardId client))]).

(** C6 as the spec words it, for the workspace flavour: when [cid]
    disconnects, every member that remains in its room is sent something. *)
Definition remaining_members_notified (st : State) (cid : string) : Prop :=
  ∀ st' out, step (close cid) st = Some (st', out) →
    ∀ W s, workspaceClients st !! W = Some s → cid ∈ s →
      ∀ r, r ∈ s ∖ {[cid]} → inbox r out ≠ [].

Definition member_a : Client :=
  {| Client.id := "a"; Client.ws := open_socket; Client.userId := None;
     Client.workspaceId := Some "w1"; Client.boardId := None |}.

(** C8 as the spec words it: once a transport error on [cid] has run its
    course, the error is in the log, the connection is out of the registry
    and out of every room, and every member that remains in a room of [cid]
    has been sent something. *)
Definition error_tears_down (st : State) (cid : string) : Prop :=
  ∀ st' out, run (transport_error cid) st = Some (st', out) →
    log ("WebSocket error for client " +:+ cid +:+ ":") ∈ out ∧
    clients st' !! cid = None ∧
    (∀ W, ¬ member (workspaceClients st') W cid) ∧
    (∀ B, ¬ member (boardClients st') B cid) ∧
    (∀ W s, workspaceClients st !! W = Some s → cid ∈ s →
       ∀ r, r ∈ s ∖ {[cid]} → inbox r out ≠ []) ∧
    (∀ B s, boardClients st !! B = Some s → cid ∈ s →
       ∀ r, r ∈ s ∖ {[cid]} → inbox r out ≠ []).

(** Three members of ["w1"], the socket of ["b"] CLOSING. *)
Definition w1_with_closing_member : State :=
  after [connection "a" open_socket; connection "b" open_socket;
         connection "c" open_socket;
         message "a" (join_workspace "w1") 0; message "b" (join_workspace "w1") 0;
         message "c" (join_workspace "w1") 0; transport "b" CLOSING].

Definition wire_field (m : value) (k : string) : value :=
  match m with
  | object ps =>
      match lookup_prop "payload" ps with
      | object qs => lookup_prop k qs
      | _ => undefined
      end
  | _ => undefined
  end.

Definition no_user (st : State) : Prop :=
  ∀ k c, clients st !! k = Some c → Client.userId c = None.

(** C10 as the spec words it, for one inbound frame: no message sent in
    response carries a [userId], [movedBy] or [createdBy]. *)
Definition user_fields_never_sent (st : State) (cid : string) (data : option value) : Prop :=
  ∀ st' out, step (message cid data 0) st = Some (st', out) →
    ∀ r m, send r m ∈ out →
      wire_field m "userId" = undefined ∧
      wire_field m "movedBy" = undefined ∧
      wire_field m "createdBy" = undefined.

Definition board_member_a : Client :=
  {| Client.id := "a"; Client.ws := open_socket; Client.userId := None;
     Client.workspaceId := None; Client.boardId := Some "b1" |}.

(** ** The invariant at the named rooms

    What holds of one flavour of room on every run, empty room ids or not:
    a registered connection is a member of the room its field names, no room
    is empty, and a member of a room with a non-empty id is a registered
    connection whose field names that room. *)
Record index_sound (field : Client → option string)
    (rooms : gmap string (gset string)) (cls : gmap string Client) : Prop := {
  is_field : ∀ k c R, cls !! k = Some c → field c = Some R → member rooms R k;
  is_nonempty : ∀ R s, rooms !! R = Some s → s ≠ ∅;
  is_named : ∀ R k, R ≠ "" → member rooms R k →
               ∃ c, cls !! k = Some c ∧ field c = Some R;
}.

Record sound (st : State) : Prop := {
  sound_registry : registry_ok st;
  sound_workspace : index_sound Client.workspaceId (workspaceClients st) (clients st);
  sound_board : index_sound Client.boardId (boardClients st) (clients st);
}.

(** ** The client hook [useWebSocket]

    The functions of the hook that build and send frames. [wsRef] is
    [wsRef.current]: [None] for [null], else the [readyState] of the socket.
    A frame is the tree that [JSON.stringify({ type, payload })] denotes,
    which is what [JSON.parse] gives the relay back. *)
Module Hook.

Record UseWebSocketProps := {
  workspaceId : option string;
  boardId : option string;
  userId : option string;
}.

Definition sendMessage (wsRef : option ReadyState) (type : string) (payload : value)
    : list value :=
  match wsRef with
  | Some OPEN => [JSON_stringify (object [("type", str type); ("payload", payload)])]
  | _ => []
  end.

Definition broadcastCardMoved (wsRef : option ReadyState)
    (cardId columnId : string) (position : Z) : list value :=
  sendMessage wsRef "card_moved"
    (object [("cardId", str cardId); ("columnId", str columnId);
             ("position", number position)]).

Definition broadcastCardCreated (wsRef : option ReadyState) (card : value) : list value :=
  sendMessage wsRef "card_created" (object [("card", card)]).

Definition broadcastUserTyping (wsRef : option ReadyState) (data : value) : list value :=
  sendMessage wsRef "user_typing" data.

Definition broadcastCursorMove (wsRef : option ReadyState) (x y : Z) : list value :=
  sendMessage wsRef "cursor_move" (object [("x", number x); ("y", number y)]).

(** The body of [onopen], which is also the body of the effect that runs
    when [workspaceId] or [boardId] changes: join what the props name. *)
Definition join_rooms (wsRef : option ReadyState) (props : UseWebSocketProps)
    : list value :=
  (match workspaceId props with
   | Some w =>
       if bool_decide (w ≠ "")
       then sendMessage wsRef "join_workspace" (object [("workspaceId", str w)])
       else []
   | None => []
   end)
  ++ (match boardId props with
      | Some b =>
          if bool_decide (b ≠ "")
          then sendMessage wsRef "join_board" (object [("boardId", str b)])
          else []
      | None => []
      end).

End Hook.

(** States and runs used as instances. *)

Definition two_rooms_run : list Event :=
  [connection "a" open_socket; connection "b" open_socket;
   message "a" (join_workspace "w1") 0; message "b" (join_workspace "w1") 0;
   message "a" (join_board "b1") 0; message "b" (join_workspace "w2") 0;
   transport "b" CLOSING; close "a"].

Definition two_on_board : State :=
  after [connection "a" open_socket; connection "b" open_socket;
         message "a" (join_board "b1") 0; message "b" (join_board "b1") 0].

Definition w1_member_b : Client :=
  {| Client.id := "b"; Client.ws := open_socket; Client.userId := None;
     Client.workspaceId := Some "w1"; Client.boardId := None |}.

Definition board_page_props : Hook.UseWebSocketProps :=
  {| Hook.workspaceId := Some "w1"; Hook.boardId := Some "b1";
     Hook.userId := Some "u1" |}.

(** * Lemmas *)

(** ** Strings as code units *)

(** ASCII text is spread character by character. *)
Lemma chars_ascii s :
  Forall (λ c, (Ascii.N_of_ascii c < 0x80)%N) (String.list_ascii_of_string s) →
  chars s = (λ c, String c EmptyString) <$> String.list_ascii_of_string s.
Proof.
  unfold chars. induction 1 as [|c l Hc _ IH]; [done|]. simpl.
  rewrite (proj2 (N.ltb_lt _ _)); [lia|]. by rewrite IH.
Qed.

(** The text [a], U+00E9, U+20AC, U+1F600: three code units of one, two and
    three bytes, and the surrogates D83D and DE00. *)
Lemma chars_beyond_ascii :
  code_units (Ascii.ascii_of_N
                <$> [0x61; 0xC3; 0xA9; 0xE2; 0x82; 0xAC; 0xF0; 0x9F; 0x98; 0x80]%N)
  = (λ bs, String.string_of_list_ascii (Ascii.ascii_of_N <$> bs))
      <$> [[0x61]; [0xC3; 0xA9]; [0xE2; 0x82; 0xAC];
           [0xED; 0xA0; 0xBD]; [0xED; 0xB8; 0x80]]%N.
Proof. vm_compute. reflexivity. Qed.

Section Rooms.
Implicit Types (rooms : gmap string (gset string)) (s : gset string).

Lemma enter_room_lookup room cid rooms R :
  enter_room room cid rooms !! R =
    if decide (R = room) then Some (default ∅ (rooms !! room) ∪ {[cid]}) else rooms !! R.
Proof.
  unfold enter_room. case_decide as HR.
  - subst R. destruct (rooms !! room) as [s|] eqn:E.
    + by rewrite lookup_alter_eq E.
    + by rewrite lookup_alter_eq lookup_insert_eq.
  - rewrite lookup_alter_ne //.
    destruct (rooms !! room); [done|]. by rewrite lookup_insert_ne.
Qed.

Lemma leave_room_lookup p cid rooms R :
  p ≠ "" →
  leave_room (Some p) cid rooms !! R =
    if decide (R = p) then
      match rooms !! p with
      | Some s => if decide (s ∖ {[cid]} = ∅) then None else Some (s ∖ {[cid]})
      | None => None
      end
    else rooms !! R.
Proof.
  intros Hp. unfold leave_room. rewrite bool_decide_true //.
  destruct (rooms !! p) as [s|] eqn:E.
  - destruct (decide (size (s ∖ {[cid]}) = 0)) as [Hz|Hz].
    + apply size_empty_inv in Hz. apply leibniz_equiv in Hz.
      case_decide; subst.
      * rewrite lookup_delete_eq. by rewrite decide_True.
      * by rewrite lookup_delete_ne.
    + assert (s ∖ {[cid]} ≠ ∅) by (intros Heq; rewrite Heq size_empty in Hz; done).
      case_decide; subst.
      * rewrite lookup_insert_eq. by rewrite decide_False.
      * by rewrite lookup_insert_ne.
  - case_decide; subst; done.
Qed.

Lemma leave_room_unnamed prev cid rooms :
  (∀ p, prev = Some p → p = "") → leave_room prev cid rooms = rooms.
Proof.
  intros H. destruct prev as [p|]; [|done]. simpl.
  rewrite (H p eq_refl). rewrite bool_decide_false; [|done]. by intros Hne; apply Hne.
Qed.

Lemma member_enter room cid rooms R k :
  member (enter_room room cid rooms) R k ↔ member rooms R k ∨ (R = room ∧ k = cid).
Proof.
  unfold member. rewrite enter_room_lookup. case_decide as HR.
  - subst R. split.
    + intros (s & [= <-] & Hin). apply elem_of_union in Hin as [Hin|Hin].
      * destruct (rooms !! room) as [s|]; [left; eauto|set_solver].
      * right. set_solver.
    + intros [(s & Hs & Hin)|[_ ->]]; eexists; (split; [done|]).
      * rewrite Hs. set_solver.
      * set_solver.
  - split; [intros; by left|]. intros [?|[? _]]; done.
Qed.

Lemma member_leave p cid rooms R k :
  p ≠ "" →
  member (leave_room (Some p) cid rooms) R k ↔ member rooms R k ∧ ¬ (R = p ∧ k = cid).
Proof.
  intros Hp. unfold member. rewrite leave_room_lookup //. case_decide as HR.
  - subst R. destruct (rooms !! p) as [s|] eqn:E.
    + case_decide as Hs.
      * split; [by intros (? & ? & ?)|]. intros [(s' & [= <-] & Hin) Hne].
        exfalso. assert (k ∈ s ∖ {[cid]}) as Hk; [|by rewrite Hs in Hk].
        apply elem_of_difference. split; [done|]. intros ?%elem_of_singleton. by apply Hne.
      * split.
        -- intros (s' & [= <-] & Hin). apply elem_of_difference in Hin as [Hin Hk].
           split; [eauto|]. intros [_ ->]. set_solver.
        -- intros [(s' & [= <-] & Hin) Hne]. eexists. split; [done|].
           apply elem_of_difference. split; [done|].
           intros ?%elem_of_singleton. by apply Hne.
    + split; [by intros (? & ? & ?)|]. by intros [(? & ? & ?) _].
  - split; [intros; split; [done|]; by intros [? _]|]. by intros [? _].
Qed.

Lemma enter_room_nonempty room cid rooms :
  (∀ R s, rooms !! R = Some s → s ≠ ∅) →
  ∀ R s, enter_room room cid rooms !! R = Some s → s ≠ ∅.
Proof.
  intros H R s. rewrite enter_room_lookup. case_decide.
  - intros [= <-]. set_solver.
  - apply H.
Qed.

Lemma leave_room_nonempty prev cid rooms :
  (∀ R s, rooms !! R = Some s → s ≠ ∅) →
  ∀ R s, leave_room prev cid rooms !! R = Some s → s ≠ ∅.
Proof.
  intros H R s. destruct prev as [p|]; [|apply H].
  destruct (decide (p = "")) as [->|Hp].
  { rewrite leave_room_unnamed; [by intros ? [= <-]|apply H]. }
  rewrite leave_room_lookup //. case_decide; [|apply H].
  destruct (rooms !! p); [|done]. case_decide; [done|]. by intros [= <-].
Qed.
End Rooms.

(** ** The broadcast engine, as a list of sends *)

Section Broadcast.
Implicit Types (st : State) (s : gset string) (m : value) (out : list Effect).

Lemma foldl_deliver st m ex (l : list string) out :
  registry_ok st →
  foldl (deliver st m ex) out l
  = out ++ ((λ k, send k m) <$> filter (addressed st ex) l).
Proof.
  intros Hreg. revert out. induction l as [|k l IH]; intros out; simpl.
  { by rewrite app_nil_r. }
  rewrite IH filter_cons. unfold deliver.
  destruct (decide (addressed st ex k)) as [[Hex Ho]|Hn].
  - unfold is_open in Ho. rewrite bool_decide_true //.
    destruct (clients st !! k) as [c|] eqn:Hc; [|done].
    rewrite (Hreg _ _ Hc) decide_True //. by rewrite fmap_cons -app_assoc.
  - case_bool_decide as Hex; [|done].
    destruct (clients st !! k) as [c|] eqn:Hc; [|done].
    case_decide as Ho; [|done].
    exfalso. apply Hn. split; [done|]. by rewrite /is_open Hc.
Qed.

Lemma broadcastToWorkspace_fanout st W message ex :
  registry_ok st →
  broadcastToWorkspace st W message ex
  = match workspaceClients st !! W with
    | Some s => fanout st s ex (JSON_stringify message)
    | None => []
    end.
Proof.
  intros Hreg. unfold broadcastToWorkspace.
  destruct (workspaceClients st !! W); [|done]. by rewrite /= foldl_deliver.
Qed.

Lemma broadcastToBoard_fanout st B message ex :
  registry_ok st →
  broadcastToBoard st B message ex
  = match boardClients st !! B with
    | Some s => fanout st s ex (JSON_stringify message)
    | None => []
    end.
Proof.
  intros Hreg. unfold broadcastToBoard.
  destruct (boardClients st !! B); [|done]. by rewrite /= foldl_deliver.
Qed.

Lemma inbox_app r out1 out2 : inbox r (out1 ++ out2) = inbox r out1 ++ inbox r out2.
Proof. apply omap_app. Qed.

Lemma inbox_sends r m (P : string → Prop) `{!∀ k, Decision (P k)} (l : list string) :
  NoDup l →
  inbox r ((λ k, send k m) <$> filter P l) = if decide (r ∈ l ∧ P r) then [m] else [].
Proof.
  induction 1 as [|k l Hk Hl IH].
  { case_decide as Hn; [|done]. destruct Hn as [Hin _]. by apply elem_of_nil in Hin. }
  assert (inbox r ((λ k, send k m) <$> filter P (k :: l))
          = (if decide (k = r ∧ P k) then [m] else [])
            ++ inbox r ((λ k, send k m) <$> filter P l)) as ->.
  { rewrite filter_cons. destruct (decide (P k)) as [HP|HP].
    - rewrite fmap_cons /=. destruct (decide (k = r)) as [->|Hne].
      + by rewrite decide_True.
      + rewrite decide_False //. by intros [? _].
    - rewrite decide_False //. by intros [_ ?]. }
  rewrite IH.
  destruct (decide (k = r ∧ P k)) as [[-> HP]|Hn1];
    destruct (decide (r ∈ l ∧ P r)) as [[Hin HP']|Hn2]; simpl.
  - done.
  - rewrite decide_True //. split; [left|done].
  - rewrite decide_True //. split; [by right|done].
  - rewrite decide_False //. intros [[->|?]%elem_of_cons ?]; [by apply Hn1|by apply Hn2].
Qed.

Lemma inbox_fanout r st s ex m :
  inbox r (fanout st s ex m) = if decide (r ∈ s ∧ addressed st ex r) then [m] else [].
Proof.
  unfold fanout. rewrite inbox_sends; [apply NoDup_elements|].
  destruct (decide (r ∈ s ∧ addressed st ex r)) as [[? ?]|Hn].
  - rewrite decide_True //. split; [by apply elem_of_elements|done].
  - rewrite decide_False //. intros [?%elem_of_elements ?]. by apply Hn.
Qed.
End Broadcast.

(** ** What each lifecycle handler does to the three maps *)

Section Handlers.
Implicit Types (st : State) (client : Client).

Local Ltac unfold_setters :=
  unfold set_clients, set_workspaceClients, set_boardClients in *; simpl in *.

Local Ltac split_cases :=
  repeat (unfold_setters;
          first [ case_bool_decide | case_decide
                | match goal with
                  | |- context [match ?x !! ?k with _ => _ end] =>
                      destruct (x !! k) eqn:?
                  | |- context [match ?o with Some _ => _ | None => _ end] =>
                      destruct o eqn:?
                  end ]);
  unfold_setters.

Lemma handleJoinWorkspace_state client W st :
  let st' := (handleJoinWorkspace client W st).1 in
  clients st'
  = alter (λ _, Client.with_workspaceId (Some W) client) (Client.id client) (clients st) ∧
  workspaceClients st'
  = enter_room W (Client.id client)
      (leave_room (Client.workspaceId client) (Client.id client) (workspaceClients st)) ∧
  boardClients st' = boardClients st.
Proof.
  unfold handleJoinWorkspace, leave_room, enter_room. split_cases; simplify_eq; auto.
Qed.

Lemma handleJoinBoard_state client B st :
  let st' := (handleJoinBoard client B st).1 in
  clients st'
  = alter (λ _, Client.with_boardId (Some B) client) (Client.id client) (clients st) ∧
  boardClients st'
  = enter_room B (Client.id client)
      (leave_room (Client.boardId client) (Client.id client) (boardClients st)) ∧
  workspaceClients st' = workspaceClients st.
Proof.
  unfold handleJoinBoard, leave_room, enter_room. split_cases; simplify_eq; auto.
Qed.

Lemma handleDisconnect_state client st :
  let st' := (handleDisconnect client st).1 in
  clients st' = delete (Client.id client) (clients st) ∧
  workspaceClients st'
  = leave_room (Client.workspaceId client) (Client.id client) (workspaceClients st) ∧
  boardClients st'
  = leave_room (Client.boardId client) (Client.id client) (boardClients st).
Proof.
  unfold handleDisconnect, leave_room. split_cases; simplify_eq; auto.
Qed.
End Handlers.

(** ** The membership invariant *)

Section Invariant.
Context (field : Client → option string).
Implicit Types (rooms : gmap string (gset string)) (cls : gmap string Client).

Lemma alter_const_insert cls cid (c c' : Client) :
  cls !! cid = Some c → alter (λ _, c') cid cls = <[cid := c']> cls.
Proof.
  intros Hc. apply map_eq. intros k. destruct (decide (k = cid)) as [->|Hne].
  - by rewrite lookup_alter_eq Hc lookup_insert_eq.
  - by rewrite lookup_alter_ne // lookup_insert_ne.
Qed.

Lemma member_leave_other prev cid rooms R k :
  k ≠ cid → member (leave_room prev cid rooms) R k ↔ member rooms R k.
Proof.
  intros Hk. destruct prev as [p|]; [|done].
  destruct (decide (p = "")) as [->|Hp].
  { rewrite leave_room_unnamed //. by intros ? [= <-]. }
  rewrite member_leave //. split; [by intros [? _]|]. intros ?. split; [done|].
  by intros [_ ?].
Qed.

Lemma member_leave_self rooms cls cid c R :
  index_consistent field rooms cls → cls !! cid = Some c →
  ¬ member (leave_room (field c) cid rooms) R cid.
Proof.
  intros Hic Hc Hm. destruct (field c) as [p|] eqn:Hf.
  - assert (p ≠ "") as Hp by (intros ->; by eapply ic_named).
    apply member_leave in Hm as [Hm Hne]; [|done].
    apply (ic_field _ _ _ Hic _ _ _ Hc) in Hm. apply Hne. split; congruence.
  - apply (ic_field _ _ _ Hic _ _ _ Hc) in Hm. congruence.
Qed.

Lemma index_consistent_join rooms cls cid c c' room :
  index_consistent field rooms cls → cls !! cid = Some c →
  room ≠ "" → field c' = Some room →
  index_consistent field
    (enter_room room cid (leave_room (field c) cid rooms)) (<[cid := c']> cls).
Proof.
  intros Hic Hc Hroom Hf. split.
  - intros k c0 R Hk. rewrite member_enter.
    destruct (decide (k = cid)) as [->|Hne].
    + rewrite lookup_insert_eq in Hk. simplify_eq. rewrite Hf. split.
      * intros [= <-]. by right.
      * intros [Hm|[-> _]]; [|done]. by eapply member_leave_self in Hm.
    + rewrite lookup_insert_ne // in Hk. rewrite member_leave_other //.
      rewrite (ic_field _ _ _ Hic _ _ _ Hk). split; [by left|].
      by intros [?|[_ ?]].
  - apply enter_room_nonempty, leave_room_nonempty, Hic.
  - intros R k [Hm|[_ ->]]%member_enter; [|by rewrite lookup_insert_eq].
    destruct (decide (k = cid)) as [->|Hne]; [by rewrite lookup_insert_eq|].
    rewrite lookup_insert_ne //. apply member_leave_other in Hm; [|done].
    by eapply ic_registered.
  - intros k c0 Hk. destruct (decide (k = cid)) as [->|Hne].
    + rewrite lookup_insert_eq in Hk. simplify_eq. rewrite Hf. congruence.
    + rewrite lookup_insert_ne // in Hk. by eapply ic_named.
Qed.

Lemma index_consistent_update rooms cls cid c c' :
  index_consistent field rooms cls → cls !! cid = Some c →
  field c' = field c →
  index_consistent field rooms (<[cid := c']> cls).
Proof.
  intros Hic Hc Hf. split.
  - intros k c0 R Hk. destruct (decide (k = cid)) as [->|Hne].
    + rewrite lookup_insert_eq in Hk. simplify_eq. rewrite Hf. by eapply ic_field.
    + rewrite lookup_insert_ne // in Hk. by eapply ic_field.
  - apply Hic.
  - intros R k Hm. destruct (decide (k = cid)) as [->|Hne].
    + by rewrite lookup_insert_eq.
    + rewrite lookup_insert_ne //. by eapply ic_registered.
  - intros k c0 Hk. destruct (decide (k = cid)) as [->|Hne].
    + rewrite lookup_insert_eq in Hk. simplify_eq. rewrite Hf. by eapply ic_named.
    + rewrite lookup_insert_ne // in Hk. by eapply ic_named.
Qed.

Lemma index_consistent_disconnect rooms cls cid c :
  index_consistent field rooms cls → cls !! cid = Some c →
  index_consistent field (leave_room (field c) cid rooms) (delete cid cls).
Proof.
  intros Hic Hc. split.
  - intros k c0 R Hk. destruct (decide (k = cid)) as [->|Hne].
    + by rewrite lookup_delete_eq in Hk.
    + rewrite lookup_delete_ne // in Hk. rewrite member_leave_other //.
      by eapply ic_field.
  - apply leave_room_nonempty, Hic.
  - intros R k Hm. destruct (decide (k = cid)) as [->|Hne].
    + by eapply member_leave_self in Hm.
    + rewrite lookup_delete_ne //. apply member_leave_other in Hm; [|done].
      by eapply ic_registered.
  - intros k c0 Hk. destruct (decide (k = cid)) as [->|Hne].
    + by rewrite lookup_delete_eq in Hk.
    + rewrite lookup_delete_ne // in Hk. by eapply ic_named.
Qed.

Lemma index_consistent_connect rooms cls cid c0 :
  index_consistent field rooms cls → cls !! cid = None → field c0 = None →
  index_consistent field rooms (<[cid := c0]> cls).
Proof.
  intros Hic Hc Hf. split.
  - intros k c R Hk. destruct (decide (k = cid)) as [->|Hne].
    + rewrite lookup_insert_eq in Hk. simplify_eq. rewrite Hf. split; [done|].
      intros Hm. apply (ic_registered _ _ _ Hic) in Hm as [? ?]. congruence.
    + rewrite lookup_insert_ne // in Hk. by eapply ic_field.
  - apply Hic.
  - intros R k Hm. destruct (decide (k = cid)) as [->|Hne].
    + by rewrite lookup_insert_eq.
    + rewrite lookup_insert_ne //. by eapply ic_registered.
  - intros k c Hk. destruct (decide (k = cid)) as [->|Hne].
    + rewrite lookup_insert_eq in Hk. simplify_eq. by rewrite Hf.
    + rewrite lookup_insert_ne // in Hk. by eapply ic_named.
Qed.

(** A connection is in at most one room of the flavour. *)
Lemma index_consistent_one_room rooms cls k R1 R2 :
  index_consistent field rooms cls →
  member rooms R1 k → member rooms R2 k → R1 = R2.
Proof.
  intros Hic H1 H2. destruct (ic_registered _ _ _ Hic _ _ H1) as [c Hc].
  apply (ic_field _ _ _ Hic _ _ _ Hc) in H1, H2. congruence.
Qed.
End Invariant.

(** ** Steps of the relay *)

Section Steps.
Implicit Types (st : State) (client : Client) (ev : Event).

Lemma broadcast_handlers_state client payload now st :
  (handleCardMoved client payload now st).1 = st ∧
  (handleCardCreated client payload now st).1 = st ∧
  (handleUserTyping client payload st).1 = st ∧
  (handleCursorMove client payload st).1 = st.
Proof.
  unfold handleCardMoved, handleCardCreated, handleUserTyping, handleCursorMove.
  destruct (Client.boardId client) as [b|]; [|done]. by case_bool_decide.
Qed.

(** A handled message either leaves the maps alone or is a join. *)
Lemma handleMessage_returned client m now st r :
  handleMessage client m now st = returned r →
  r.1 = st ∨
  (∃ W, (get m "payload" ≫= λ p, get p "workspaceId") = Some (str W) ∧
        r = handleJoinWorkspace client W st) ∨
  (∃ B, (get m "payload" ≫= λ p, get p "boardId") = Some (str B) ∧
        r = handleJoinBoard client B st).
Proof.
  unfold handleMessage.
  destruct (broadcast_handlers_state client (default undefined (get m "payload")) now st)
    as (? & ? & ? & ?).
  destruct (get m "type") as [[| | | |type| |]|]; try (intros [= <-]; by left); try done.
  repeat case_decide; try (intros [= <-]; by left).
  - destruct (get m "payload" ≫= _) as [[| | | |W| |]|]; try done.
    intros [= <-]. right; left. eauto.
  - destruct (get m "payload" ≫= _) as [[| | | |B| |]|]; try done.
    intros [= <-]. right; right. eauto.
Qed.

Lemma on_message_inv client data now st st' out :
  on_message client data now st = Some (st', out) →
  st' = st ∨
  (∃ m W, data = Some m ∧
          (get m "payload" ≫= λ p, get p "workspaceId") = Some (str W) ∧
          (st', out) = handleJoinWorkspace client W st) ∨
  (∃ m B, data = Some m ∧
          (get m "payload" ≫= λ p, get p "boardId") = Some (str B) ∧
          (st', out) = handleJoinBoard client B st).
Proof.
  unfold on_message. destruct data as [m|]; [|intros [= <- _]; by left].
  destruct (handleMessage client m now st) as [r| |] eqn:Hm; [|intros [= <- _]; by left|done].
  intros [= ->]. apply handleMessage_returned in Hm as [Hm|[(W & ? & ?)|(B & ? & ?)]].
  - by left.
  - right; left. eauto.
  - right; right. eauto.
Qed.

(** The same, with the type the router has read. *)
Lemma on_message_join_inv client m now st st' out :
  on_message client (Some m) now st = Some (st', out) →
  st' = st ∨
  (∃ W, get m "type" = Some (str "join_workspace") ∧
        room_id m "workspaceId" = Some (str W) ∧
        (st', out) = handleJoinWorkspace client W st) ∨
  (∃ B, get m "type" = Some (str "join_board") ∧
        room_id m "boardId" = Some (str B) ∧
        (st', out) = handleJoinBoard client B st).
Proof.
  unfold on_message, handleMessage, room_id.
  destruct (broadcast_handlers_state client (default undefined (get m "payload")) now st)
    as (? & ? & ? & ?).
  destruct (get m "type") as [[| | | |type| |]|]; try (intros [= <- _]; by left).
  repeat case_decide; subst;
    try (destruct (handleCardMoved _ _ _ _); intros [= <- _]; by left);
    try (destruct (handleCardCreated _ _ _ _); intros [= <- _]; by left);
    try (destruct (handleUserTyping _ _ _); intros [= <- _]; by left);
    try (destruct (handleCursorMove _ _ _); intros [= <- _]; by left);
    try (intros [= <- _]; by left).
  - destruct (get m "payload" ≫= _) as [[| | | |W| |]|];
      try done; try (intros [= <- _]; by left).
    intros Hj. right; left. exists W. split_and!; [done..|congruence].
  - destruct (get m "payload" ≫= _) as [[| | | |B| |]|];
      try done; try (intros [= <- _]; by left).
    intros Hj. right; right. exists B. split_and!; [done..|congruence].
Qed.

Lemma step_registry_ok ev st st' out :
  registry_ok st → step ev st = Some (st', out) → registry_ok st'.
Proof.
  intros Hreg Hstep. destruct ev as [cid ws|cid data now|cid|cid|cid rs]; simpl in Hstep.
  - destruct (clients st !! cid) eqn:Hc; [done|]. case_decide; [|done].
    unfold on_connection in Hstep. simplify_eq. intros k c. simpl.
    destruct (decide (k = cid)) as [->|Hne].
    + rewrite lookup_insert_eq. by intros [= <-].
    + rewrite lookup_insert_ne //. apply Hreg.
  - destruct (clients st !! cid) as [client|] eqn:Hc; [|done]. simpl in Hstep.
    apply on_message_inv in Hstep as [->|[(m & W & _ & _ & Hj)|(m & B & _ & _ & Hj)]]; [done|..].
    + destruct (handleJoinWorkspace_state client W st) as (Hcl & _).
      rewrite -Hj /= in Hcl. intros k c. rewrite Hcl.
      destruct (decide (k = Client.id client)) as [->|Hne].
      * rewrite lookup_alter_eq. destruct (clients st !! Client.id client); [|done].
        by intros [= <-].
      * rewrite lookup_alter_ne //. apply Hreg.
    + destruct (handleJoinBoard_state client B st) as (Hcl & _).
      rewrite -Hj /= in Hcl. intros k c. rewrite Hcl.
      destruct (decide (k = Client.id client)) as [->|Hne].
      * rewrite lookup_alter_eq. destruct (clients st !! Client.id client); [|done].
        by intros [= <-].
      * rewrite lookup_alter_ne //. apply Hreg.
  - destruct (clients st !! cid) as [client|] eqn:Hc; [|done]. simpl in Hstep.
    unfold on_close in Hstep. destruct (handleDisconnect_state client st) as (Hcl & _).
    destruct (handleDisconnect client st) as [st1 out1]. simplify_eq. simpl in Hcl.
    intros k c. rewrite Hcl. intros Hk.
    apply lookup_delete_Some in Hk as [_ Hk]. by apply Hreg.
  - destruct (clients st !! cid) as [client|] eqn:Hc; [|done]. simpl in Hstep.
    unfold on_error in Hstep. by simplify_eq.
  - destruct (clients st !! cid) as [client|] eqn:Hc; [|done]. simpl in Hstep.
    case_decide; [|done]. simplify_eq. intros k c. simpl.
    destruct (decide (k = cid)) as [->|Hne].
    + rewrite lookup_insert_eq. intros [= <-]. simpl. by apply Hreg.
    + rewrite lookup_insert_ne //. apply Hreg.
Qed.

Lemma step_consistent ev st st' out :
  consistent st → named_rooms ev → step ev st = Some (st', out) → consistent st'.
Proof.
  intros [Hreg Hws Hbd] Hnamed Hstep.
  pose proof (step_registry_ok _ _ _ _ Hreg Hstep) as Hreg'.
  destruct ev as [cid ws|cid data now|cid|cid|cid rs]; simpl in Hstep;
    (destruct (clients st !! cid) as [client|] eqn:Hc;
     [pose proof (Hreg _ _ Hc) as Hid|]; try done; simpl in Hstep).
  - case_decide; [|done]. unfold on_connection in Hstep. simplify_eq.
    split; [done|simpl..]; by apply index_consistent_connect.
  - apply on_message_inv in Hstep
      as [->|[(m & W & -> & HW & Hj)|(m & B & -> & HB & Hj)]]; [done|..];
      destruct Hnamed as [HnW HnB].
    + destruct (handleJoinWorkspace_state client W st) as (Hcl & Hw & Hb).
      rewrite -Hj /= in Hcl Hw Hb.
      subst cid.
      split; [done|rewrite Hcl ?Hw ?Hb (alter_const_insert _ _ client) //..].
      * apply index_consistent_join; try done. congruence.
      * by eapply index_consistent_update.
    + destruct (handleJoinBoard_state client B st) as (Hcl & Hb & Hw).
      rewrite -Hj /= in Hcl Hw Hb.
      subst cid.
      split; [done|rewrite Hcl ?Hw ?Hb (alter_const_insert _ _ client) //..].
      * by eapply index_consistent_update.
      * apply index_consistent_join; try done. congruence.
  - unfold on_close in Hstep.
    destruct (handleDisconnect_state client st) as (Hcl & Hw & Hb).
    destruct (handleDisconnect client st) as [st1 out1]. simplify_eq. simpl in *.
    split; [done|rewrite Hcl ?Hw ?Hb..]; by apply index_consistent_disconnect.
  - unfold on_error in Hstep. by simplify_eq.
  - case_decide; [|done]. simplify_eq.
    split; [done|simpl..]; by eapply index_consistent_update.
Qed.

Lemma reachable_registry_ok P st : reachable_by P st → registry_ok st.
Proof.
  induction 1 as [|st ev st' out _ IH _ Hstep]; [by intros k c|].
  by eapply step_registry_ok.
Qed.

(** On a run of [step] that names no empty room id the invariant always
    holds. *)
Lemma reachable_consistent st : reachable_by named_rooms st → consistent st.
Proof.
  induction 1 as [|st ev st' out _ IH Hnamed Hstep].
  - split; [by intros k c|split..]; try done.
    all: by intros ? ? (? & ? & ?).
  - by eapply step_consistent.
Qed.

(** A run whose joins all carry a non-empty string changes the maps only
    by steps that name no empty room id. *)
Lemma step_consistent_joins ev st st' out :
  consistent st → named_joins ev → step ev st = Some (st', out) → consistent st'.
Proof.
  intros Hcons Hnamed Hstep.
  destruct ev as [cid ws|cid [m|] now|cid|cid|cid rs];
    try (refine (step_consistent _ st st' out Hcons _ Hstep); exact I).
  simpl in Hstep. destruct (clients st !! cid) as [client|] eqn:Hc; [|done].
  simpl in Hstep. destruct Hnamed as [HnW HnB].
  apply on_message_join_inv in Hstep as [->|[(W & Ht & HW & Hj)|(B & Ht & HB & Hj)]];
    [done|..].
  - destruct (HnW Ht _ HW) as (? & [= <-] & HWn).
    apply (step_consistent (message cid (join_workspace W) now) st st' out); [done|..].
    + split; simpl; [congruence|done].
    + by rewrite Hj /= Hc.
  - destruct (HnB Ht _ HB) as (? & [= <-] & HBn).
    apply (step_consistent (message cid (join_board B) now) st st' out); [done|..].
    + split; simpl; [done|congruence].
    + by rewrite Hj /= Hc.
Qed.

Lemma reachable_consistent_joins st : reachable_by named_joins st → consistent st.
Proof.
  induction 1 as [|st ev st' out _ IH Hnamed Hstep].
  - split; [by intros k c|split..]; try done.
    all: by intros ? ? (? & ? & ?).
  - by eapply step_consistent_joins.
Qed.
End Steps.

(** ** Runs *)

Lemma run_reachable P evs st st' out :
  reachable_by P st → Forall P evs → run evs st = Some (st', out) → reachable_by P st'.
Proof.
  intros Hst Hall. revert st out Hst.
  induction Hall as [|ev evs Hev _ IH]; intros st out Hst; simpl.
  { by intros [= <- _]. }
  destruct (step ev st) as [[st1 out1]|] eqn:Hstep; [|done].
  destruct (run evs st1) as [[st2 out2]|] eqn:Hrun; [|done].
  intros [= <- _]. eapply IH; [|done]. by eapply reachable_step.
Qed.

Lemma after_reachable P evs :
  Forall P evs → is_Some (run evs init) → reachable_by P (after evs).
Proof.
  intros Hall [[st out] Hrun]. unfold after. rewrite Hrun /=.
  eapply run_reachable; [apply reachable_init|done..].
Qed.

Lemma step_join_workspace st cid client R now :
  clients st !! cid = Some client →
  step (message cid (join_workspace R) now) st = Some (handleJoinWorkspace client R st).
Proof. intros Hc. by rewrite /= Hc. Qed.

Lemma step_join_board st cid client B now :
  clients st !! cid = Some client →
  step (message cid (join_board B) now) st = Some (handleJoinBoard client B st).
Proof. intros Hc. by rewrite /= Hc. Qed.

Lemma remaining_leave_room prev cid (rooms : gmap string (gset string)) R :
  default ∅ (leave_room prev cid rooms !! R) ∖ {[cid]} = default ∅ (rooms !! R) ∖ {[cid]}.
Proof.
  destruct prev as [p|]; [|done].
  destruct (decide (p = "")) as [->|Hp].
  { rewrite leave_room_unnamed //. by intros ? [= <-]. }
  rewrite leave_room_lookup //. case_decide as HR; [subst R|done].
  destruct (rooms !! p) as [s|]; [|done].
  destruct (decide (s ∖ {[cid]} = ∅)) as [Hs|Hs]; simpl; [rewrite Hs|]; set_solver.
Qed.

(** * Properties of the relay *)

(** ** Room membership *)

Local Ltac run_it := vm_compute; reflexivity.
Local Ltac member_of s := exists s; split; [run_it|set_solver].

(** Runs the step that the hypothesis [H] is about. *)
Local Ltac run_step H Hstep :=
  match type of H with
  | ∀ st' out, ?lhs = Some (st', out) → _ =>
      eassert (lhs = Some (_, _)) as Hstep by run_it
  end.

(** C1: the membership invariant fails on the run [unnamed_then_w1]. The
    first join files the connection under the empty room id; the second join
    tests [client.workspaceId] for truthiness, takes [""] for "no previous
    workspace" and skips the removal. The connection's field says ["w1"]
    while its id sits in the member sets of both [""] and ["w1"]. *)
Theorem empty_room_id_breaks_membership :
  ∃ st out c,
    run unnamed_then_w1 init = Some (st, out) ∧
    reachable st ∧
    clients st !! "a" = Some c ∧
    Client.workspaceId c = Some "w1" ∧
    member (workspaceClients st) "" "a" ∧
    member (workspaceClients st) "w1" "a" ∧
    ¬ consistent st.
Proof.
  eexists _, _, _. split; [run_it|].
  assert (∀ st, member (workspaceClients st) "" "a" →
                member (workspaceClients st) "w1" "a" → ¬ consistent st) as Hbad.
  { intros st H1 H2 [_ Hws _].
    by pose proof (index_consistent_one_room _ _ _ _ _ _ Hws H1 H2). }
  assert (∀ R, R = "" ∨ R = "w1" →
               member (workspaceClients (after unnamed_then_w1)) R "a") as Hin.
  { intros R [-> | ->]; member_of ({["a"]} : gset string). }
  split_and!.
  - apply (after_reachable _ unnamed_then_w1); [by repeat constructor|by eexists; run_it].
  - run_it.
  - reflexivity.
  - apply Hin. by left.
  - apply Hin. by right.
  - apply Hbad; apply Hin; [by left|by right].
Qed.

(** C2, counterexample: with [R1 = R2 = "w1"] the connection is, as it must
    be, still in [R1] after the second join. *)
Lemma leaves_first_room_same_room :
  ¬ leaves_first_room (after [connection "a" open_socket]) "a" "w1" "w1".
Proof.
  intros H. edestruct H as (_ & Hout & _); [run_it|].
  apply Hout. member_of ({["a"]} : gset string).
Qed.

(** C2, amended: for two different room ids, the first of them not empty,
    and a registered connection in a consistent state, after
    [join_workspace(R1)] and [join_workspace(R2)] the connection is a member
    of exactly [R2]; [R1] is left with its other members, and is deleted
    from the index when there are none. *)
Theorem switch_workspace st cid R1 R2 t1 t2 :
  consistent st → is_Some (clients st !! cid) → R1 ≠ "" → R1 ≠ R2 →
  ∃ st2 out,
    run [message cid (join_workspace R1) t1; message cid (join_workspace R2) t2] st
    = Some (st2, out) ∧
    (∀ W, member (workspaceClients st2) W cid ↔ W = R2) ∧
    workspaceClients st2 !! R1
    = (let rest := default ∅ (workspaceClients st !! R1) ∖ {[cid]} in
       if decide (rest = ∅) then None else Some rest).
Proof.
  intros [Hreg Hws _] [client Hc] HR1 Hne.
  pose proof (Hreg _ _ Hc) as Hid.
  destruct (handleJoinWorkspace client R1 st) as [st1 out1] eqn:H1.
  pose proof (handleJoinWorkspace_state client R1 st) as (Hcl1 & Hw1 & _).
  rewrite H1 /= in Hcl1 Hw1.
  set (client1 := Client.with_workspaceId (Some R1) client) in *.
  assert (clients st1 !! cid = Some client1) as Hc1.
  { by rewrite Hcl1 Hid lookup_alter_eq Hc. }
  destruct (handleJoinWorkspace client1 R2 st1) as [st2 out2] eqn:H2.
  pose proof (handleJoinWorkspace_state client1 R2 st1) as (_ & Hw2 & _).
  rewrite H2 /= Hw1 Hid in Hw2.
  exists st2, (out1 ++ out2 ++ []). split.
  { rewrite /run (step_join_workspace _ _ client) // H1.
    by rewrite (step_join_workspace _ _ client1) // H2. }
  rewrite Hw2. split.
  - intros W. rewrite member_enter. split; [|by right].
    intros [Hm|[-> _]]; [|done]. exfalso.
    apply member_leave in Hm as [Hm Hn]; [|done].
    apply member_enter in Hm as [Hm|[-> _]]; [|by apply Hn].
    by eapply member_leave_self in Hm.
  - rewrite enter_room_lookup decide_False // leave_room_lookup // decide_True //.
    rewrite enter_room_lookup decide_True //=.
    replace ((default ∅ (leave_room (Client.workspaceId client) cid
                           (workspaceClients st) !! R1) ∪ {[cid]}) ∖ {[cid]})
      with (default ∅ (workspaceClients st !! R1) ∖ {[cid]}); [done|].
    rewrite -(remaining_leave_room (Client.workspaceId client)). set_solver.
Qed.

Lemma switch_workspace_witness :
  let st := after [connection "a" open_socket; connection "b" open_socket;
                   message "b" (join_workspace "w1") 0] in
  consistent st ∧ is_Some (clients st !! "a") ∧ "w1" ≠ "" ∧ "w1" ≠ "w2" ∧
  ∃ st2 out,
    run [message "a" (join_workspace "w1") 1; message "a" (join_workspace "w2") 2] st
    = Some (st2, out) ∧
    (∀ W, member (workspaceClients st2) W "a" ↔ W = "w2") ∧
    workspaceClients st2 !! "w1"
    = (let rest := default ∅ (workspaceClients st !! "w1") ∖ {["a"]} in
       if decide (rest = ∅) then None else Some rest).
Proof.
  intros st.
  assert (consistent st) as Hcons.
  { apply reachable_consistent, after_reachable; [|by eexists; vm_compute].
    repeat constructor; simpl; discriminate. }
  assert (is_Some (clients st !! "a")) as Hreg by (eexists; vm_compute; reflexivity).
  split_and!; [done|done|discriminate|discriminate|].
  apply (switch_workspace st "a" "w1" "w2" 1 2 Hcons Hreg); discriminate.
Defined.

(** ** Joining *)

Lemma State_eq (st1 st2 : State) :
  clients st1 = clients st2 → workspaceClients st1 = workspaceClients st2 →
  boardClients st1 = boardClients st2 → st1 = st2.
Proof. destruct st1, st2. simpl. by intros -> -> ->. Qed.

(** The sends of a join, read off the state the join leaves. *)
Lemma handleJoinWorkspace_out client W st :
  let '(st', out) := handleJoinWorkspace client W st in
  out = broadcastToWorkspace st' W
          (mk_message "user_joined"
             [("userId", of_option (Client.userId client)); ("workspaceId", str W)])
          (Some (Client.id client))
        ++ [send (Client.id client)
              (users_count "workspace_users"
                 (size (default ∅ (workspaceClients st' !! W))))].
Proof.
  unfold handleJoinWorkspace, users_count. cbv zeta.
  match goal with
  | |- context [match workspaceClients ?s !! W with Some s0 => size s0 | None => 0 end] =>
      destruct (workspaceClients s !! W); [done|]
  end.
  by rewrite /default size_empty.
Qed.

Lemma handleJoinBoard_out client B st :
  let '(st', out) := handleJoinBoard client B st in
  out = broadcastToBoard st' B
          (mk_message "user_joined_board"
             [("userId", of_option (Client.userId client)); ("boardId", str B)])
          (Some (Client.id client))
        ++ [send (Client.id client)
              (users_count "board_users"
                 (size (default ∅ (boardClients st' !! B))))].
Proof.
  unfold handleJoinBoard, users_count. cbv zeta.
  match goal with
  | |- context [match boardClients ?s !! B with Some s0 => size s0 | None => 0 end] =>
      destruct (boardClients s !! B); [done|]
  end.
  by rewrite /default size_empty.
Qed.

Lemma registry_ok_alter st st' (c' : Client) :
  registry_ok st →
  clients st' = alter (λ _, c') (Client.id c') (clients st) →
  registry_ok st'.
Proof.
  intros Hreg Hcl k c. rewrite Hcl.
  destruct (decide (k = Client.id c')) as [->|Hne].
  - rewrite lookup_alter_eq. destruct (clients st !! Client.id c'); [|done].
    by intros [= <-].
  - rewrite lookup_alter_ne //. apply Hreg.
Qed.

Lemma is_open_alter st st' (c' : Client) k r :
  clients st' = alter (λ _, c') k (clients st) → r ≠ k →
  is_open st' r ↔ is_open st r.
Proof. intros Hcl Hne. by rewrite /is_open Hcl lookup_alter_ne. Qed.

(** The inbox of every connection after a fan-out to the members [s] that
    leaves out [cid], followed by a reply to [cid]. *)
Lemma inbox_notify_reply st st' (c' : Client) cid s m reply r :
  clients st' = alter (λ _, c') cid (clients st) →
  inbox r (fanout st' s (Some cid) m ++ [send cid reply])
  = if decide (r = cid) then [reply]
    else if decide (r ∈ s ∧ is_open st r) then [m] else [].
Proof.
  intros Hcl. rewrite inbox_app inbox_fanout /=.
  destruct (decide (r = cid)) as [->|Hne].
  - rewrite decide_False; [by intros [_ [? _]]|]. by rewrite decide_True.
  - rewrite (decide_False (P := cid = r)) // app_nil_r.
    destruct (decide (r ∈ s ∧ is_open st r)) as [[? ?]|Hn].
    + rewrite decide_True //. split; [done|]. split; [congruence|].
      by apply (is_open_alter st st' c' cid r Hcl Hne).
    + rewrite decide_False //. intros [? [_ Ho]]. apply Hn. split; [done|].
      by apply (is_open_alter st st' c' cid r Hcl Hne).
Qed.

(** C9, counterexample: ["a"] is in ["w1"] and its socket is CLOSING when
    ["b"] joins; ["a"] is a member of the room and is sent nothing. *)
Lemma closing_member_not_notified :
  ¬ notifies_every_other_member
      (after [connection "a" open_socket; message "a" (join_workspace "w1") 0;
              transport "a" CLOSING; connection "b" open_socket])
      "b" "w1".
Proof.
  intros H. unfold notifies_every_other_member in H.
  run_step H Hstep. eapply (H _ _ Hstep "a").
  - member_of ({["a"; "b"]} : gset string).
  - discriminate.
  - run_it.
Qed.

(** C9, amended: after a join the room [R] holds the joiner; every other
    member of [R] that is registered with an OPEN socket is sent one join
    notification carrying the joiner's [userId] field and the room id, the
    joiner is sent only the member count of [R], and nobody else is sent
    anything. Both flavours. *)
Theorem join_side_effects st client R :
  registry_ok st →
  (let '(st', out) := handleJoinWorkspace client R st in
   ∃ s, workspaceClients st' !! R = Some s ∧ Client.id client ∈ s ∧
     ∀ r, inbox r out
          = if decide (r = Client.id client)
            then [users_count "workspace_users" (size s)]
            else if decide (r ∈ s ∧ is_open st r)
                 then [joined_workspace client R] else []) ∧
  (let '(st', out) := handleJoinBoard client R st in
   ∃ s, boardClients st' !! R = Some s ∧ Client.id client ∈ s ∧
     ∀ r, inbox r out
          = if decide (r = Client.id client)
            then [users_count "board_users" (size s)]
            else if decide (r ∈ s ∧ is_open st r)
                 then [joined_board client R] else []).
Proof.
  intros Hreg. split.
  - pose proof (handleJoinWorkspace_out client R st) as Hout.
    pose proof (handleJoinWorkspace_state client R st) as (Hcl & Hw & _).
    destruct (handleJoinWorkspace client R st) as [st' out]. simpl in Hcl, Hw.
    pose proof (registry_ok_alter st st' (Client.with_workspaceId (Some R) client)
                  Hreg Hcl) as Hreg'.
    rewrite broadcastToWorkspace_fanout // Hw enter_room_lookup decide_True // in Hout.
    rewrite Hw enter_room_lookup decide_True //.
    eexists. split; [done|]. split; [set_solver|]. intros r. subst out. simpl.
    by erewrite inbox_notify_reply.
  - pose proof (handleJoinBoard_out client R st) as Hout.
    pose proof (handleJoinBoard_state client R st) as (Hcl & Hb & _).
    destruct (handleJoinBoard client R st) as [st' out]. simpl in Hcl, Hb.
    pose proof (registry_ok_alter st st' (Client.with_boardId (Some R) client)
                  Hreg Hcl) as Hreg'.
    rewrite broadcastToBoard_fanout // Hb enter_room_lookup decide_True // in Hout.
    rewrite Hb enter_room_lookup decide_True //.
    eexists. split; [done|]. split; [set_solver|]. intros r. subst out. simpl.
    by erewrite inbox_notify_reply.
Qed.

Lemma join_side_effects_witness :
  let st := after [connection "a" open_socket; connection "b" open_socket;
                   message "a" (join_workspace "w1") 0;
                   message "a" (join_board "b1") 0] in
  registry_ok st ∧
  (let '(st', out) := handleJoinWorkspace (fresh_client "b") "w1" st in
   ∃ s, workspaceClients st' !! "w1" = Some s ∧ "b" ∈ s ∧
     ∀ r, inbox r out
          = if decide (r = "b")
            then [users_count "workspace_users" (size s)]
            else if decide (r ∈ s ∧ is_open st r)
                 then [joined_workspace (fresh_client "b") "w1"] else []) ∧
  (let '(st', out) := handleJoinBoard (fresh_client "b") "b1" st in
   ∃ s, boardClients st' !! "b1" = Some s ∧ "b" ∈ s ∧
     ∀ r, inbox r out
          = if decide (r = "b")
            then [users_count "board_users" (size s)]
            else if decide (r ∈ s ∧ is_open st r)
                 then [joined_board (fresh_client "b") "b1"] else []).
Proof.
  intros st.
  assert (registry_ok st) as Hreg.
  { apply (reachable_registry_ok (λ _, True)), after_reachable;
      [by repeat constructor|by eexists; vm_compute]. }
  split; [done|].
  split; [apply (join_side_effects st (fresh_client "b") "w1" Hreg)
         |apply (join_side_effects st (fresh_client "b") "b1" Hreg)].
Defined.

(** ** Joining the same board twice *)

(** C3, counterexample: ["a"] is in ["b1"]; ["b"] joins ["b1"] twice and
    ["a"] is sent [user_joined_board] both times. *)
Lemma rejoin_notifies_again :
  ¬ rejoin_is_silent
      (after [connection "a" open_socket; connection "b" open_socket;
              message "a" (join_board "b1") 0])
      "b" "b1".
Proof.
  intros H. unfold rejoin_is_silent in H.
  match type of H with
  | ∀ st1 out1 st2 out2, ?lhs = Some (st1, out1) → _ =>
      eassert (lhs = Some (_, _)) as Hstep1 by run_it
  end.
  pose proof (λ st2 out2, H _ _ st2 out2 Hstep1) as H2. simpl in H2.
  run_step H2 Hstep2.
  destruct (H2 _ _ Hstep2) as [_ Hsilent].
  specialize (Hsilent "a" ltac:(discriminate)).
  vm_compute in Hsilent. discriminate.
Qed.

Lemma enter_leave_enter room cid (rooms : gmap string (gset string)) :
  enter_room room cid (leave_room (Some room) cid (enter_room room cid rooms))
  = enter_room room cid rooms.
Proof.
  apply map_eq. intros R. rewrite !enter_room_lookup.
  destruct (decide (R = room)) as [->|Hne].
  - f_equal.
    pose proof (remaining_leave_room (Some room) cid (enter_room room cid rooms) room) as Hr.
    rewrite (enter_room_lookup room cid rooms room) decide_True //= in Hr.
    apply set_eq. intros x. rewrite !elem_of_union.
    destruct (decide (x = cid)) as [->|Hx]; [set_solver|].
    assert (x ∈ default ∅ (leave_room (Some room) cid (enter_room room cid rooms) !! room)
                ∖ {[cid]}
            ↔ x ∈ (default ∅ (rooms !! room) ∪ {[cid]}) ∖ {[cid]}) as Hx'
      by by rewrite Hr.
    set_solver.
  - destruct (decide (room = "")) as [->|Hroom].
    + rewrite leave_room_unnamed; [by intros ? [= <-]|].
      by rewrite enter_room_lookup decide_False.
    + rewrite leave_room_lookup // decide_False //.
      by rewrite enter_room_lookup decide_False.
Qed.

(** C3, amended: a second [join_board(B)] right after the first leaves the
    registry and both indexes exactly as the first join left them (so [B]
    has the same members), and makes the same sends again: the
    [user_joined_board] notification to every other open member of [B] and
    the [board_users] reply. *)
Theorem rejoin_board_repeats st cid B t1 t2 st1 out1 :
  registry_ok st →
  step (message cid (join_board B) t1) st = Some (st1, out1) →
  step (message cid (join_board B) t2) st1 = Some (st1, out1).
Proof.
  intros Hreg Hstep.
  destruct (clients st !! cid) as [client|] eqn:Hc; [|by rewrite /= Hc in Hstep].
  rewrite (step_join_board _ _ client) // in Hstep.
  assert (handleJoinBoard client B st = (st1, out1)) as Hj by congruence.
  clear Hstep. pose proof (Hreg _ _ Hc) as Hid.
  pose proof (handleJoinBoard_out client B st) as Hout.
  pose proof (handleJoinBoard_state client B st) as (Hcl & Hb & Hw).
  rewrite Hj /= in Hout Hcl Hb Hw.
  set (client1 := Client.with_boardId (Some B) client) in *.
  assert (clients st1 !! cid = Some client1) as Hc1.
  { by rewrite Hcl Hid lookup_alter_eq Hc. }
  rewrite (step_join_board _ _ client1) //. f_equal.
  pose proof (handleJoinBoard_out client1 B st1) as Hout2.
  pose proof (handleJoinBoard_state client1 B st1) as (Hcl2 & Hb2 & Hw2).
  destruct (handleJoinBoard client1 B st1) as [st2 out2]. simpl in Hcl2, Hb2, Hw2.
  assert (st2 = st1) as ->.
  { apply State_eq; [|done|].
    - rewrite Hcl2 /=. apply map_eq. intros k.
      destruct (decide (k = Client.id client)) as [->|Hne].
      + rewrite lookup_alter_eq Hid Hc1 /=. done.
      + by rewrite lookup_alter_ne.
    - rewrite Hb2 Hb /=. apply enter_leave_enter. }
  by rewrite Hout2 Hout.
Qed.

Lemma rejoin_board_repeats_witness :
  let st := after [connection "a" open_socket; connection "b" open_socket;
                   message "a" (join_board "b1") 0] in
  ∃ st1 out1,
    registry_ok st ∧
    step (message "b" (join_board "b1") 1) st = Some (st1, out1) ∧
    step (message "b" (join_board "b1") 2) st1 = Some (st1, out1) ∧
    inbox "a" out1 = [joined_board (fresh_client "b") "b1"].
Proof.
  intros st.
  assert (registry_ok st) as Hreg.
  { apply (reachable_registry_ok (λ _, True)), after_reachable;
      [by repeat constructor|by eexists; vm_compute]. }
  eassert (step (message "b" (join_board "b1") 1) st = Some (_, _)) as Hstep.
  { vm_compute. reflexivity. }
  eexists _, _. split; [done|]. split; [exact Hstep|]. split.
  - exact (rejoin_board_repeats st "b" "b1" 1 2 _ _ Hreg Hstep).
  - vm_compute. reflexivity.
Defined.

(** ** Board events *)

(** C4: a sender that is in the member set of board [""], with an OPEN
    socket, gets nothing back from its own [card_moved] or [card_created]:
    the handlers test [client.boardId] for truthiness and return. *)
Theorem unnamed_board_card_events_dropped :
  member (boardClients in_unnamed_board) "" "a" ∧
  is_open in_unnamed_board "a" ∧
  step (message "a" (envelope "card_moved" [("cardId", str "c1")]) 7) in_unnamed_board
  = Some (in_unnamed_board, []) ∧
  step (message "a" (envelope "card_created" [("card", str "c2")]) 7) in_unnamed_board
  = Some (in_unnamed_board, []).
Proof.
  split_and!.
  - member_of ({["a"]} : gset string).
  - vm_compute. reflexivity.
  - run_it.
  - run_it.
Qed.

(** C5: a board event from a connection whose [boardId] is unset changes
    nothing and sends nothing, not even a log line. *)
Theorem unjoined_board_event_ignored st client m t now :
  Client.boardId client = None →
  get m "type" = Some (str t) → t ∈ board_events →
  on_message client (Some m) now st = Some (st, []).
Proof.
  intros Hb Ht Hin. unfold on_message, handleMessage. rewrite Ht.
  unfold handleCardMoved, handleCardCreated, handleUserTyping, handleCursorMove.
  rewrite Hb. unfold board_events in Hin.
  repeat (apply elem_of_cons in Hin as [->|Hin]; [reflexivity|]).
  by apply elem_of_nil in Hin.
Qed.

Lemma unjoined_board_event_ignored_witness :
  Client.boardId (fresh_client "a") = None ∧
  get (mk_message "card_moved" [("cardId", str "c1")]) "type" = Some (str "card_moved") ∧
  "card_moved" ∈ board_events ∧
  on_message (fresh_client "a") (envelope "card_moved" [("cardId", str "c1")]) 7
    (after [connection "a" open_socket])
  = Some (after [connection "a" open_socket], []).
Proof.
  assert ("card_moved" ∈ board_events) as Hin by (unfold board_events; set_solver).
  split_and!; [reflexivity|reflexivity|exact Hin|].
  exact (unjoined_board_event_ignored (after [connection "a" open_socket])
           (fresh_client "a") (mk_message "card_moved" [("cardId", str "c1")])
           "card_moved" 7 eq_refl eq_refl Hin).
Defined.

(** ** Protocol errors *)

(** C7: an undecodable frame, and a decoded one whose [type] is not one of
    the six known strings, is logged and dropped: the step leaves the
    registry (so the connection and its socket state) and both indexes as
    they were and sends nothing, and the events that follow run as if the
    frame had not arrived. *)
Theorem bad_frame_dropped st cid client data now :
  clients st !! cid = Some client →
  (data = None ∨
   ∃ m, data = Some m ∧ ∀ t, get m "type" = Some (str t) → t ∉ known_types) →
  ∃ line,
    step (message cid data now) st = Some (st, [log line]) ∧
    ∀ evs, run (message cid data now :: evs) st
           = (λ '(st', out), (st', log line :: out)) <$> run evs st.
Proof.
  intros Hc Hbad.
  assert (∃ line, step (message cid data now) st = Some (st, [log line])) as [line Hstep].
  { rewrite /= Hc /=. destruct Hbad as [->|(m & -> & Hm)]; [by eexists|].
    unfold on_message, handleMessage.
    destruct (get m "type") as [[| | | |t| |]|]; try by eexists.
    specialize (Hm t eq_refl). unfold known_types in Hm.
    repeat (case_decide; [subst t; exfalso; apply Hm; set_solver|]).
    by eexists. }
  exists line. split; [done|]. intros evs.
  change (run (message cid data now :: evs) st)
    with (match step (message cid data now) st with
          | Some (st', out) =>
              match run evs st' with
              | Some (st'', out') => Some (st'', out ++ out')
              | None => None
              end
          | None => None
          end).
  rewrite Hstep. by destruct (run evs st) as [[st'' out']|].
Qed.

Lemma bad_frame_dropped_witness :
  let st := after [connection "a" open_socket] in
  clients st !! "a" = Some (fresh_client "a") ∧
  ∃ line,
    step (message "a" (envelope "ping" []) 0) st = Some (st, [log line]) ∧
    ∀ evs, run (message "a" (envelope "ping" []) 0 :: evs) st
           = (λ '(st', out), (st', log line :: out)) <$> run evs st.
Proof.
  intros st.
  assert (clients st !! "a" = Some (fresh_client "a")) as Hc by (vm_compute; reflexivity).
  split; [exact Hc|].
  apply (bad_frame_dropped st "a" (fresh_client "a") (envelope "ping" []) 0 Hc).
  right. eexists. split; [reflexivity|]. intros t [= <-].
  unfold known_types. set_solver.
Defined.

(** ** Disconnecting *)

Lemma fanout_clients st1 st s ex m :
  clients st1 = clients st → fanout st1 s ex m = fanout st s ex m.
Proof. destruct st1, st. simpl. by intros ->. Qed.

Lemma inbox_fanout_all r st s m :
  inbox r (fanout st s None m) = if decide (r ∈ s ∧ is_open st r) then [m] else [].
Proof.
  rewrite inbox_fanout. destruct (decide (r ∈ s ∧ is_open st r)) as [[? ?]|Hn].
  - by rewrite decide_True.
  - rewrite decide_False //. intros [? [_ ?]]. by apply Hn.
Qed.

(** The sends of [handleDisconnect]: one fan-out per flavour, to the members
    that remain, none when nobody remains. *)
Lemma handleDisconnect_out client st :
  registry_ok st →
  (handleDisconnect client st).2
  = (let rest := remaining (workspaceClients st) (Client.workspaceId client)
                   (Client.id client) in
     if decide (rest = ∅) then [] else fanout st rest None (left_workspace client))
    ++ (let rest := remaining (boardClients st) (Client.boardId client)
                      (Client.id client) in
        if decide (rest = ∅) then [] else fanout st rest None (left_board client)).
Proof.
  intros Hreg. unfold handleDisconnect, left_workspace, left_board, remaining. cbv zeta.
  assert (∀ s : gset string, size s = 0 ↔ s = ∅) as Hsize.
  { intros s. split; [intros ?%size_empty_inv; by apply leibniz_equiv|].
    intros ->. apply size_empty. }
  destruct (Client.workspaceId client) as [W|] eqn:HW;
    [case_bool_decide as HWn;
     [destruct (workspaceClients st !! W) as [sw|] eqn:Hsw; cbv beta iota zeta;
      [destruct (decide (size (sw ∖ {[Client.id client]}) = 0)) as [Hz|Hz];
       rewrite Hsize in Hz|]|]|].
  all: cbn [fst snd default of_option boardClients workspaceClients
            set_workspaceClients set_boardClients set_clients].
  all: destruct (Client.boardId client) as [B|] eqn:HB;
    [case_bool_decide as HBn;
     [destruct (boardClients st !! B) as [sb|] eqn:Hsb; cbv beta iota zeta;
      [destruct (decide (size (sb ∖ {[Client.id client]}) = 0)) as [Hz'|Hz'];
       rewrite Hsize in Hz'|]|]|].
  all: cbn [fst snd default of_option boardClients workspaceClients
            set_workspaceClients set_boardClients set_clients].
  all: assert ((∅ : gset string) ∖ {[Client.id client]} = ∅) as Hempty by set_solver.
  all: rewrite ?Hempty.
  all: repeat match goal with
         | H : ?s = ∅ |- context [decide (?s = ∅)] => rewrite (decide_True (P := s = ∅)) //
         | H : ?s ≠ ∅ |- context [decide (?s = ∅)] => rewrite (decide_False (P := s = ∅)) //
         | |- context [decide (∅ = ∅)] => rewrite (decide_True (P := ∅ = ∅)) //
         end.
  all: rewrite ?broadcastToWorkspace_fanout ?broadcastToBoard_fanout //.
  all: cbn [fst snd default of_option boardClients workspaceClients
            set_workspaceClients set_boardClients set_clients].
  all: rewrite ?lookup_insert_eq ?(fanout_clients _ st) //.
Qed.

(** The inbox of every connection after a disconnect. *)
Lemma handleDisconnect_inbox client st r :
  registry_ok st →
  inbox r (handleDisconnect client st).2
  = (if decide (r ∈ remaining (workspaceClients st) (Client.workspaceId client)
                      (Client.id client) ∧ is_open st r)
     then [left_workspace client] else [])
    ++ (if decide (r ∈ remaining (boardClients st) (Client.boardId client)
                         (Client.id client) ∧ is_open st r)
        then [left_board client] else []).
Proof.
  intros Hreg. rewrite handleDisconnect_out // inbox_app. cbv zeta. f_equal.
  - destruct (decide (remaining _ _ _ = ∅)) as [->|_]; [|apply inbox_fanout_all].
    case_decide as Hin; [|done]. destruct Hin as [Hin _]. set_solver.
  - destruct (decide (remaining _ _ _ = ∅)) as [->|_]; [|apply inbox_fanout_all].
    case_decide as Hin; [|done]. destruct Hin as [Hin _]. set_solver.
Qed.

Lemma leave_room_remaining (rooms : gmap string (gset string)) R cid :
  R ≠ "" →
  leave_room (Some R) cid rooms !! R
  = if decide (remaining rooms (Some R) cid = ∅) then None
    else Some (remaining rooms (Some R) cid).
Proof.
  intros HR. rewrite leave_room_lookup // decide_True // /remaining bool_decide_true //.
  destruct (rooms !! R) as [s|]; [done|]. simpl. rewrite decide_True //. set_solver.
Qed.

(** C6, counterexample: ["a"], ["b"] and ["c"] are in ["w1"] and the socket
    of ["b"] is CLOSING when ["a"] disconnects; ["b"] remains a member and is
    sent nothing. *)
Lemma closing_member_not_told_of_departure :
  ¬ remaining_members_notified
      (after [connection "a" open_socket; connection "b" open_socket;
              connection "c" open_socket;
              message "a" (join_workspace "w1") 0; message "b" (join_workspace "w1") 0;
              message "c" (join_workspace "w1") 0; transport "b" CLOSING])
      "a".
Proof.
  intros H. unfold remaining_members_notified in H.
  run_step H Hstep.
  unshelve eapply (H _ _ Hstep "w1" ({["a"; "b"; "c"]} : gset string) _ _ "b");
    first [run_it | set_solver].
Qed.

(** C6, amended: on disconnect the connection leaves the registry; the room
    held in its workspace (board) field, when that id is not empty, is left
    with the other members, or removed from the index when there are none;
    each remaining member that is registered with an OPEN socket is sent
    exactly one [user_left] ([user_left_board]) carrying the departing
    connection's [userId] field and the room id, and nobody else is sent
    anything. *)
Theorem disconnect_effects st client :
  registry_ok st →
  let cid := Client.id client in
  let ws_rest := remaining (workspaceClients st) (Client.workspaceId client) cid in
  let bd_rest := remaining (boardClients st) (Client.boardId client) cid in
  let '(st', out) := handleDisconnect client st in
  clients st' = delete cid (clients st) ∧
  (∀ W, Client.workspaceId client = Some W → W ≠ "" →
        workspaceClients st' !! W = if decide (ws_rest = ∅) then None else Some ws_rest) ∧
  (∀ B, Client.boardId client = Some B → B ≠ "" →
        boardClients st' !! B = if decide (bd_rest = ∅) then None else Some bd_rest) ∧
  ∀ r, inbox r out
       = (if decide (r ∈ ws_rest ∧ is_open st r) then [left_workspace client] else [])
         ++ (if decide (r ∈ bd_rest ∧ is_open st r) then [left_board client] else []).
Proof.
  intros Hreg cid ws_rest bd_rest.
  pose proof (handleDisconnect_state client st) as (Hcl & Hw & Hb).
  pose proof (λ r, handleDisconnect_inbox client st r Hreg) as Hin.
  destruct (handleDisconnect client st) as [st' out]. simpl in Hcl, Hw, Hb, Hin.
  split_and!; [done| | |done].
  - intros W HW HWn. subst ws_rest. rewrite Hw HW. by apply leave_room_remaining.
  - intros B HB HBn. subst bd_rest. rewrite Hb HB. by apply leave_room_remaining.
Qed.

Lemma disconnect_effects_witness :
  let st := after [connection "a" open_socket; connection "b" open_socket;
                   message "a" (join_workspace "w1") 0;
                   message "b" (join_workspace "w1") 0] in
  registry_ok st ∧
  clients st !! "a" = Some member_a ∧
  let ws_rest := remaining (workspaceClients st) (Some "w1") "a" in
  let bd_rest := remaining (boardClients st) None "a" in
  let '(st', out) := handleDisconnect member_a st in
  clients st' = delete "a" (clients st) ∧
  (∀ W, Some "w1" = Some W → W ≠ "" →
        workspaceClients st' !! W = if decide (ws_rest = ∅) then None else Some ws_rest) ∧
  (∀ B, None = Some B → B ≠ "" →
        boardClients st' !! B = if decide (bd_rest = ∅) then None else Some bd_rest) ∧
  ∀ r, inbox r out
       = (if decide (r ∈ ws_rest ∧ is_open st r) then [left_workspace member_a] else [])
         ++ (if decide (r ∈ bd_rest ∧ is_open st r) then [left_board member_a] else []).
Proof.
  intros st.
  assert (registry_ok st) as Hreg.
  { apply (reachable_registry_ok (λ _, True)), after_reachable;
      [by repeat constructor|by eexists; vm_compute]. }
  split; [done|]. split; [vm_compute; reflexivity|].
  exact (disconnect_effects st member_a Hreg).
Defined.

(** ** Transport errors *)

(** C8, counterexample: ["a"], ["b"] and ["c"] are in ["w1"] and the socket
    of ["b"] is CLOSING when the transport of ["a"] fails. After the error
    and the close that follows it ["a"] is gone, ["b"] remains a member of
    ["w1"] and has been sent nothing. *)
Lemma closing_member_not_told_after_error :
  ¬ error_tears_down w1_with_closing_member "a".
Proof.
  intros H. unfold error_tears_down in H.
  run_step H Hstep. destruct (H _ _ Hstep) as (_ & _ & _ & _ & Hws & _).
  unshelve eapply (Hws "w1" ({["a"; "b"; "c"]} : gset string) _ _ "b");
    first [run_it | set_solver].
Qed.

(** C8, amended: the error listener logs the error and changes nothing. With
    the [close] event that follows, the close listener logs and runs
    [handleDisconnect]: the connection leaves the registry; it leaves the
    room held in its workspace (board) field, when that id is not empty,
    which keeps its other members or is removed from the index when there
    are none; each remaining member that is registered with an OPEN socket is
    sent exactly one [user_left] ([user_left_board]), and nobody else is sent
    anything. *)
Theorem error_then_close_tears_down st cid client :
  registry_ok st → clients st !! cid = Some client →
  let ws_rest := remaining (workspaceClients st) (Client.workspaceId client) cid in
  let bd_rest := remaining (boardClients st) (Client.boardId client) cid in
  step (error cid) st = Some (st, [log ("WebSocket error for client " +:+ cid +:+ ":")]) ∧
  ∃ st' out,
    handleDisconnect client st = (st', out) ∧
    run (transport_error cid) st
    = Some (st', log ("WebSocket error for client " +:+ cid +:+ ":")
                 :: log ("Client disconnected: " +:+ cid) :: out) ∧
    clients st' = delete cid (clients st) ∧
    (∀ W, Client.workspaceId client = Some W → W ≠ "" →
          ¬ member (workspaceClients st') W cid ∧
          workspaceClients st' !! W = if decide (ws_rest = ∅) then None else Some ws_rest) ∧
    (∀ B, Client.boardId client = Some B → B ≠ "" →
          ¬ member (boardClients st') B cid ∧
          boardClients st' !! B = if decide (bd_rest = ∅) then None else Some bd_rest) ∧
    ∀ r, inbox r out
         = (if decide (r ∈ ws_rest ∧ is_open st r) then [left_workspace client] else [])
           ++ (if decide (r ∈ bd_rest ∧ is_open st r) then [left_board client] else []).
Proof.
  intros Hreg Hc ws_rest bd_rest. pose proof (Hreg _ _ Hc) as Hid.
  assert (step (error cid) st
          = Some (st, [log ("WebSocket error for client " +:+ cid +:+ ":")])) as Herr.
  { by rewrite /= Hc /= /on_error Hid. }
  split; [done|].
  pose proof (handleDisconnect_state client st) as (Hcl & Hw & Hb).
  pose proof (λ r, handleDisconnect_inbox client st r Hreg) as Hin.
  destruct (handleDisconnect client st) as [st' out] eqn:Hd.
  simpl in Hcl, Hw, Hb, Hin. rewrite Hid in Hcl Hw Hb Hin.
  exists st', out. split_and!; [done| |done| | |done].
  - assert (step (close cid) st
            = Some (st', log ("Client disconnected: " +:+ cid) :: out)) as Hclose.
    { by rewrite /= Hc /= /on_close Hd Hid. }
    by rewrite /transport_error /run Herr Hclose /= app_nil_r.
  - intros W HW HWn. split.
    + rewrite Hw HW member_leave //. intros [_ Hn]. by apply Hn.
    + subst ws_rest. rewrite Hw HW. by apply leave_room_remaining.
  - intros B HB HBn. split.
    + rewrite Hb HB member_leave //. intros [_ Hn]. by apply Hn.
    + subst bd_rest. rewrite Hb HB. by apply leave_room_remaining.
Qed.

Lemma error_then_close_tears_down_witness :
  let st := after [connection "a" open_socket; connection "b" open_socket;
                   message "a" (join_workspace "w1") 0;
                   message "b" (join_workspace "w1") 0] in
  registry_ok st ∧ clients st !! "a" = Some member_a ∧
  let ws_rest := remaining (workspaceClients st) (Some "w1") "a" in
  let bd_rest := remaining (boardClients st) None "a" in
  step (error "a") st = Some (st, [log "WebSocket error for client a:"]) ∧
  ∃ st' out,
    handleDisconnect member_a st = (st', out) ∧
    run (transport_error "a") st
    = Some (st', log "WebSocket error for client a:"
                 :: log "Client disconnected: a" :: out) ∧
    clients st' = delete "a" (clients st) ∧
    (∀ W, Some "w1" = Some W → W ≠ "" →
          ¬ member (workspaceClients st') W "a" ∧
          workspaceClients st' !! W = if decide (ws_rest = ∅) then None else Some ws_rest) ∧
    (∀ B, None = Some B → B ≠ "" →
          ¬ member (boardClients st') B "a" ∧
          boardClients st' !! B = if decide (bd_rest = ∅) then None else Some bd_rest) ∧
    ∀ r, inbox r out
         = (if decide (r ∈ ws_rest ∧ is_open st r) then [left_workspace member_a] else [])
           ++ (if decide (r ∈ bd_rest ∧ is_open st r) then [left_board member_a] else []).
Proof.
  intros st.
  assert (registry_ok st) as Hreg.
  { apply (reachable_registry_ok (λ _, True)), after_reachable;
      [by repeat constructor|by eexists; vm_compute]. }
  assert (clients st !! "a" = Some member_a) as Hc by (vm_compute; reflexivity).
  split; [done|]. split; [done|].
  exact (error_then_close_tears_down st "a" member_a Hreg Hc).
Defined.

(** ** User identifiers on the wire *)

Section Objects.
Implicit Types (ps : props) (k : string) (v : value).

Lemma lookup_prop_absent k ps : k ∉ ps.*1 → lookup_prop k ps = undefined.
Proof.
  induction ps as [|[k' v] ps IH]; [done|]. simpl. intros Hk.
  case_decide as Heq; [subst; set_solver|]. apply IH. set_solver.
Qed.

Lemma lookup_set_prop k k' v ps :
  lookup_prop k (set_prop k' v ps) = if decide (k' = k) then v else lookup_prop k ps.
Proof.
  induction ps as [|[k0 v0] ps IH]; simpl.
  - by case_decide.
  - destruct (decide (k0 = k')) as [->|Hne]; simpl.
    + by case_decide.
    + rewrite IH. destruct (decide (k0 = k)) as [->|?]; [|done].
      by rewrite decide_False.
Qed.

Lemma set_prop_keys k v ps :
  (set_prop k v ps).*1 = if decide (k ∈ ps.*1) then ps.*1 else ps.*1 ++ [k].
Proof.
  induction ps as [|[k0 v0] ps IH]; cbn [set_prop].
  - destruct (decide (k ∈ ([] : props).*1)) as [Hin|Hin]; [|done].
    by apply elem_of_nil in Hin.
  - rewrite !fmap_cons. cbn [fst].
    destruct (decide (k0 = k)) as [->|Hne].
    + rewrite fmap_cons. cbn [fst].
      destruct (decide (k ∈ k :: ps.*1)) as [Hin|Hin]; [done|]. set_solver.
    + rewrite fmap_cons IH. cbn [fst].
      destruct (decide (k ∈ ps.*1)) as [Hin|Hin];
        destruct (decide (k ∈ k0 :: ps.*1)) as [Hin'|Hin']; try done; set_solver.
Qed.

Lemma set_prop_NoDup k v ps : NoDup ps.*1 → NoDup (set_prop k v ps).*1.
Proof.
  intros Hnd. rewrite set_prop_keys. case_decide; [done|].
  apply NoDup_app. split_and!; [done| |apply NoDup_singleton].
  intros x Hx ?%list_elem_of_singleton. by subst.
Qed.

Lemma spread_NoDup ps v : NoDup ps.*1 → NoDup (spread ps v).*1.
Proof.
  unfold spread. generalize (own_props v). intros l. revert ps.
  induction l as [|[k0 v0] l IH]; intros ps Hnd; [done|].
  simpl. by apply IH, set_prop_NoDup.
Qed.

(** A spread into [{k: u}] and a spread into [{}] agree on [k] when [u] is
    [undefined]: what is found under [k] is the spread value's own. *)
Lemma lookup_spread k ps v :
  lookup_prop k (spread ps v)
  = foldl (λ acc kv, if decide (kv.1 = k) then kv.2 else acc)
      (lookup_prop k ps) (own_props v).
Proof.
  unfold spread. generalize (own_props v). intros l. revert ps.
  induction l as [|[k0 v0] l IH]; intros ps; [done|].
  by rewrite /= IH lookup_set_prop.
Qed.

Lemma lookup_strip k ps :
  NoDup ps.*1 →
  lookup_prop k (strip JSON_stringify ps) = JSON_stringify (lookup_prop k ps).
Proof.
  induction ps as [|[k' v] ps IH]; [done|].
  rewrite fmap_cons NoDup_cons. intros [Hk' Hnd]. specialize (IH Hnd).
  destruct v; simpl; case_decide as Hk; subst; rewrite ?IH //.
  by rewrite lookup_prop_absent.
Qed.

Lemma wire_field_message type ps k :
  NoDup ps.*1 →
  wire_field (JSON_stringify (mk_message type ps)) k = JSON_stringify (lookup_prop k ps).
Proof. intros Hnd. by rewrite /= lookup_strip. Qed.
End Objects.

Lemma step_no_user ev st st' out :
  registry_ok st → no_user st → step ev st = Some (st', out) → no_user st'.
Proof.
  intros Hreg Hno Hstep.
  destruct ev as [cid ws|cid data now|cid|cid|cid rs]; simpl in Hstep;
    (destruct (clients st !! cid) as [client|] eqn:Hc;
     [pose proof (Hreg _ _ Hc) as Hid; pose proof (Hno _ _ Hc) as Hu|];
     try done; simpl in Hstep).
  - case_decide; [|done]. unfold on_connection in Hstep. simplify_eq.
    intros k c. simpl. destruct (decide (k = cid)) as [->|Hne].
    + rewrite lookup_insert_eq. by intros [= <-].
    + rewrite lookup_insert_ne //. apply Hno.
  - apply on_message_inv in Hstep
      as [->|[(m & W & _ & _ & Hj)|(m & B & _ & _ & Hj)]]; [done|..].
    + destruct (handleJoinWorkspace_state client W st) as (Hcl & _).
      rewrite -Hj /= in Hcl. intros k c. rewrite Hcl.
      destruct (decide (k = Client.id client)) as [->|Hne].
      * rewrite lookup_alter_eq. destruct (clients st !! Client.id client); [|done].
        by intros [= <-].
      * rewrite lookup_alter_ne //. apply Hno.
    + destruct (handleJoinBoard_state client B st) as (Hcl & _).
      rewrite -Hj /= in Hcl. intros k c. rewrite Hcl.
      destruct (decide (k = Client.id client)) as [->|Hne].
      * rewrite lookup_alter_eq. destruct (clients st !! Client.id client); [|done].
        by intros [= <-].
      * rewrite lookup_alter_ne //. apply Hno.
  - unfold on_close in Hstep. destruct (handleDisconnect_state client st) as (Hcl & _).
    destruct (handleDisconnect client st) as [st1 out1]. simplify_eq. simpl in Hcl.
    intros k c. rewrite Hcl. intros Hk.
    apply lookup_delete_Some in Hk as [_ Hk]. by eapply Hno.
  - unfold on_error in Hstep. by simplify_eq.
  - case_decide; [|done]. clear Hid. simplify_eq. intros k c. simpl.
    destruct (decide (k = cid)) as [->|Hne].
    + rewrite lookup_insert_eq. by intros [= <-].
    + rewrite lookup_insert_ne //. apply Hno.
Qed.

Lemma reachable_no_user P st : reachable_by P st → no_user st.
Proof.
  induction 1 as [|st ev st' out Hst IH _ Hstep]; [by intros k c|].
  eapply step_no_user; [|done..]. by eapply reachable_registry_ok.
Qed.

Lemma fanout_sends st s ex m0 r m : send r m ∈ fanout st s ex m0 → m = m0.
Proof. unfold fanout. intros (k & [= _ ->] & _)%list_elem_of_fmap. done. Qed.

Lemma broadcastToWorkspace_sends st W msg ex r m :
  registry_ok st → send r m ∈ broadcastToWorkspace st W msg ex → m = JSON_stringify msg.
Proof.
  intros Hreg. rewrite broadcastToWorkspace_fanout //.
  destruct (workspaceClients st !! W); [apply fanout_sends|by intros ?%elem_of_nil].
Qed.

Lemma broadcastToBoard_sends st B msg ex r m :
  registry_ok st → send r m ∈ broadcastToBoard st B msg ex → m = JSON_stringify msg.
Proof.
  intros Hreg. rewrite broadcastToBoard_fanout //.
  destruct (boardClients st !! B); [apply fanout_sends|by intros ?%elem_of_nil].
Qed.

(** C10, counterexample: [user_typing] spreads the inbound payload after
    its own [userId], so a payload with a [userId] of its own reaches the
    other members with that value. *)
Lemma typing_payload_sets_userId :
  ¬ user_fields_never_sent
      (after [connection "a" open_socket; connection "b" open_socket;
              message "a" (join_board "b1") 0; message "b" (join_board "b1") 0])
      "a" (envelope "user_typing" [("userId", str "u1")]).
Proof.
  intros H. unfold user_fields_never_sent in H.
  run_step H Hstep.
  edestruct (H _ _ Hstep "b") as (Hu & _); [apply list_elem_of_here|].
  vm_compute in Hu. discriminate.
Qed.

(** C10, amended: in every reachable state the [userId] field of every
    registered connection is unset, no listener assigns it. So every message
    the relay derives from it goes out without that field: [movedBy] in
    [card_moved], [createdBy] in [card_created], [userId] in the join
    notifications and replies and in [user_left] and [user_left_board]. In
    [user_typing] and [cursor_move] the field [userId] is the inbound
    payload's own [userId] property, absent when the payload has none. *)
Theorem user_fields_on_the_wire st cid client payload now R :
  reachable st → clients st !! cid = Some client →
  (∀ k c, clients st !! k = Some c → Client.userId c = None) ∧
  (∀ r m, send r m ∈ (handleCardMoved client payload now st).2 →
          wire_field m "movedBy" = undefined) ∧
  (∀ r m, send r m ∈ (handleCardCreated client payload now st).2 →
          wire_field m "createdBy" = undefined) ∧
  (∀ r m, send r m ∈ (handleUserTyping client payload st).2 →
          wire_field m "userId"
          = JSON_stringify (lookup_prop "userId" (spread [] payload))) ∧
  (∀ r m, send r m ∈ (handleCursorMove client payload st).2 →
          wire_field m "userId"
          = JSON_stringify (lookup_prop "userId" (spread [] payload))) ∧
  (∀ r m, send r m ∈ (handleJoinWorkspace client R st).2 →
          wire_field m "userId" = undefined) ∧
  (∀ r m, send r m ∈ (handleJoinBoard client R st).2 →
          wire_field m "userId" = undefined) ∧
  (∀ r m, send r m ∈ (handleDisconnect client st).2 →
          wire_field m "userId" = undefined).
Proof.
  intros Hreach Hc.
  pose proof (reachable_registry_ok _ _ Hreach) as Hreg.
  pose proof (reachable_no_user _ _ Hreach) as Hno.
  pose proof (Hno _ _ Hc) as Hu.
  assert (NoDup (spread [] payload).*1) as Hnd by (apply spread_NoDup; constructor).
  split_and!; [done|..]; intros r m.
  - unfold handleCardMoved. destruct (Client.boardId client) as [B|]; [|by intros ?%elem_of_nil].
    case_bool_decide; [|by intros ?%elem_of_nil]. simpl.
    intros ->%broadcastToBoard_sends; [|done].
    rewrite wire_field_message; [by repeat apply set_prop_NoDup|].
    by rewrite !lookup_set_prop Hu.
  - unfold handleCardCreated. destruct (Client.boardId client) as [B|]; [|by intros ?%elem_of_nil].
    case_bool_decide; [|by intros ?%elem_of_nil]. simpl.
    intros ->%broadcastToBoard_sends; [|done].
    rewrite wire_field_message; [by repeat apply set_prop_NoDup|].
    by rewrite !lookup_set_prop Hu.
  - unfold handleUserTyping. destruct (Client.boardId client) as [B|]; [|by intros ?%elem_of_nil].
    case_bool_decide; [|by intros ?%elem_of_nil]. simpl.
    intros ->%broadcastToBoard_sends; [|done].
    rewrite wire_field_message; [apply spread_NoDup; repeat constructor; set_solver|].
    by rewrite !lookup_spread Hu.
  - unfold handleCursorMove. destruct (Client.boardId client) as [B|]; [|by intros ?%elem_of_nil].
    case_bool_decide; [|by intros ?%elem_of_nil]. simpl.
    intros ->%broadcastToBoard_sends; [|done].
    rewrite wire_field_message; [apply spread_NoDup; repeat constructor; set_solver|].
    by rewrite !lookup_spread Hu.
  - pose proof (handleJoinWorkspace_out client R st) as Hout.
    pose proof (handleJoinWorkspace_state client R st) as (Hcl & _).
    destruct (handleJoinWorkspace client R st) as [st' out]. simpl in *. subst out.
    pose proof (registry_ok_alter st st' (Client.with_workspaceId (Some R) client)
                  Hreg Hcl) as Hreg'.
    intros [->%broadcastToWorkspace_sends|[= _ ->]%list_elem_of_singleton]%elem_of_app;
      [by rewrite Hu|done|done].
  - pose proof (handleJoinBoard_out client R st) as Hout.
    pose proof (handleJoinBoard_state client R st) as (Hcl & _).
    destruct (handleJoinBoard client R st) as [st' out]. simpl in *. subst out.
    pose proof (registry_ok_alter st st' (Client.with_boardId (Some R) client)
                  Hreg Hcl) as Hreg'.
    intros [->%broadcastToBoard_sends|[= _ ->]%list_elem_of_singleton]%elem_of_app;
      [by rewrite Hu|done|done].
  - rewrite handleDisconnect_out //. cbv zeta.
    intros [Hin|Hin]%elem_of_app; case_decide; try (by apply elem_of_nil in Hin);
      apply fanout_sends in Hin as ->; unfold left_workspace, left_board; rewrite Hu.
    + by destruct (Client.workspaceId client).
    + by destruct (Client.boardId client).
Qed.

Lemma user_fields_on_the_wire_witness :
  let st := after [connection "a" open_socket; connection "b" open_socket;
                   message "a" (join_board "b1") 0; message "b" (join_board "b1") 0] in
  let payload := object [("userId", str "u1"); ("movedBy", str "u1")] in
  reachable st ∧ clients st !! "a" = Some board_member_a ∧
  (∀ k c, clients st !! k = Some c → Client.userId c = None) ∧
  (∀ r m, send r m ∈ (handleCardMoved board_member_a payload 7 st).2 →
          wire_field m "movedBy" = undefined) ∧
  (∀ r m, send r m ∈ (handleUserTyping board_member_a payload st).2 →
          wire_field m "userId" = str "u1").
Proof.
  intros st payload.
  assert (reachable st) as Hreach.
  { apply after_reachable; [by repeat constructor|by eexists; vm_compute]. }
  assert (clients st !! "a" = Some board_member_a) as Hc by (vm_compute; reflexivity).
  destruct (user_fields_on_the_wire st "a" board_member_a payload 7 "w1" Hreach Hc)
    as (Hno & Hmoved & _ & Htyping & _).
  split_and!; [done|done|done|done|].
  intros r m Hin. by rewrite (Htyping r m Hin).
Defined.

(** What holds of C4 next to the failing case: for a sender whose board
    field holds a non-empty id [B], [card_moved] and [card_created] go to
    every member of [B] with an OPEN socket, the sender included, and
    [user_typing] and [cursor_move] to every such member but the sender. *)
Lemma named_board_event_inbox st client B payload now r :
  registry_ok st → Client.boardId client = Some B → B ≠ "" →
  let s := default ∅ (boardClients st !! B) in
  (∃ m, inbox r (handleCardMoved client payload now st).2
        = if decide (r ∈ s ∧ is_open st r) then [m] else []) ∧
  (∃ m, inbox r (handleCardCreated client payload now st).2
        = if decide (r ∈ s ∧ is_open st r) then [m] else []) ∧
  (∃ m, inbox r (handleUserTyping client payload st).2
        = if decide (r ∈ s ∧ r ≠ Client.id client ∧ is_open st r) then [m] else []) ∧
  (∃ m, inbox r (handleCursorMove client payload st).2
        = if decide (r ∈ s ∧ r ≠ Client.id client ∧ is_open st r) then [m] else []).
Proof.
  intros Hreg HB HBn s.
  unfold handleCardMoved, handleCardCreated, handleUserTyping, handleCursorMove.
  rewrite HB bool_decide_true //=. rewrite !broadcastToBoard_fanout //.
  subst s. destruct (boardClients st !! B) as [s|]; simpl.
  - split_and!; eexists; rewrite ?inbox_fanout_all // inbox_fanout.
    all: destruct (decide (r ∈ s ∧ r ≠ Client.id client ∧ is_open st r))
           as [(? & ? & ?)|Hn].
    all: try (rewrite decide_True //; split; [done|]; split; [congruence|done]).
    all: rewrite decide_False //; intros (? & ? & ?); apply Hn.
    all: split_and!; [done| |done]; congruence.
  - split_and!; exists undefined; case_decide as Hin; try done.
    all: destruct Hin as [Hin _]; set_solver.
Qed.

(** * Further properties *)

(** ** The invariant at the named rooms *)

Section Sound.
Context (field : Client → option string).
Implicit Types (rooms : gmap string (gset string)) (cls : gmap string Client).

Lemma member_leave_self_named rooms cls cid c R :
  index_sound field rooms cls → cls !! cid = Some c → R ≠ "" →
  ¬ member (leave_room (field c) cid rooms) R cid.
Proof.
  intros Hs Hc HR Hm. destruct (field c) as [p|] eqn:Hf.
  - destruct (decide (p = "")) as [->|Hp].
    + rewrite leave_room_unnamed in Hm; [by intros ? [= <-]|].
      destruct (is_named _ _ _ Hs _ _ HR Hm) as (c' & Hc' & Hf'). congruence.
    + apply member_leave in Hm as [Hm Hne]; [|done].
      destruct (is_named _ _ _ Hs _ _ HR Hm) as (c' & Hc' & Hf').
      apply Hne. split; congruence.
  - destruct (is_named _ _ _ Hs _ _ HR Hm) as (c' & Hc' & Hf'). congruence.
Qed.

Lemma index_sound_join rooms cls cid c c' room :
  index_sound field rooms cls → cls !! cid = Some c → field c' = Some room →
  index_sound field
    (enter_room room cid (leave_room (field c) cid rooms)) (<[cid := c']> cls).
Proof.
  intros Hs Hc Hf. split.
  - intros k c0 R Hk HR. rewrite member_enter.
    destruct (decide (k = cid)) as [->|Hne].
    + rewrite lookup_insert_eq in Hk. simplify_eq. right. split; congruence.
    + rewrite lookup_insert_ne // in Hk. left. rewrite member_leave_other //.
      by eapply is_field.
  - apply enter_room_nonempty, leave_room_nonempty, Hs.
  - intros R k HR [Hm|[-> ->]]%member_enter.
    + destruct (decide (k = cid)) as [->|Hne].
      { by eapply member_leave_self_named in Hm. }
      rewrite lookup_insert_ne //. apply member_leave_other in Hm; [|done].
      by eapply is_named.
    + exists c'. by rewrite lookup_insert_eq.
Qed.

Lemma index_sound_update rooms cls cid c c' :
  index_sound field rooms cls → cls !! cid = Some c → field c' = field c →
  index_sound field rooms (<[cid := c']> cls).
Proof.
  intros Hs Hc Hf. split.
  - intros k c0 R Hk. destruct (decide (k = cid)) as [->|Hne].
    + rewrite lookup_insert_eq in Hk. simplify_eq. rewrite Hf. by eapply is_field.
    + rewrite lookup_insert_ne // in Hk. by eapply is_field.
  - apply Hs.
  - intros R k HR Hm. destruct (is_named _ _ _ Hs _ _ HR Hm) as (c0 & Hc0 & Hf0).
    destruct (decide (k = cid)) as [->|Hne].
    + exists c'. rewrite lookup_insert_eq. split; [done|]. congruence.
    + exists c0. by rewrite lookup_insert_ne.
Qed.

Lemma index_sound_disconnect rooms cls cid c :
  index_sound field rooms cls → cls !! cid = Some c →
  index_sound field (leave_room (field c) cid rooms) (delete cid cls).
Proof.
  intros Hs Hc. split.
  - intros k c0 R Hk HR. destruct (decide (k = cid)) as [->|Hne].
    + by rewrite lookup_delete_eq in Hk.
    + rewrite lookup_delete_ne // in Hk. rewrite member_leave_other //.
      by eapply is_field.
  - apply leave_room_nonempty, Hs.
  - intros R k HR Hm. destruct (decide (k = cid)) as [->|Hne].
    + by eapply member_leave_self_named in Hm.
    + rewrite lookup_delete_ne //. apply member_leave_other in Hm; [|done].
      by eapply is_named.
Qed.

Lemma index_sound_connect rooms cls cid c0 :
  index_sound field rooms cls → cls !! cid = None → field c0 = None →
  index_sound field rooms (<[cid := c0]> cls).
Proof.
  intros Hs Hc Hf. split.
  - intros k c R Hk HR. destruct (decide (k = cid)) as [->|Hne].
    + rewrite lookup_insert_eq in Hk. simplify_eq; congruence.
    + rewrite lookup_insert_ne // in Hk. by eapply is_field.
  - apply Hs.
  - intros R k HR Hm. destruct (is_named _ _ _ Hs _ _ HR Hm) as (c & Hc' & Hf').
    exists c. rewrite lookup_insert_ne //. congruence.
Qed.
End Sound.

Lemma step_sound ev st st' out :
  sound st → step ev st = Some (st', out) → sound st'.
Proof.
  intros [Hreg Hws Hbd] Hstep.
  pose proof (step_registry_ok _ _ _ _ Hreg Hstep) as Hreg'.
  destruct ev as [cid ws|cid data now|cid|cid|cid rs]; simpl in Hstep;
    (destruct (clients st !! cid) as [client|] eqn:Hc;
     [pose proof (Hreg _ _ Hc) as Hid|]; try done; simpl in Hstep).
  - case_decide; [|done]. unfold on_connection in Hstep. simplify_eq.
    split; [done|simpl..]; by apply index_sound_connect.
  - apply on_message_inv in Hstep
      as [->|[(m & W & -> & HW & Hj)|(m & B & -> & HB & Hj)]]; [done|..].
    + destruct (handleJoinWorkspace_state client W st) as (Hcl & Hw & Hb).
      rewrite -Hj /= in Hcl Hw Hb. subst cid.
      split; [done|rewrite Hcl ?Hw ?Hb (alter_const_insert _ _ client) //..].
      * by apply index_sound_join.
      * by eapply index_sound_update.
    + destruct (handleJoinBoard_state client B st) as (Hcl & Hb & Hw).
      rewrite -Hj /= in Hcl Hw Hb. subst cid.
      split; [done|rewrite Hcl ?Hw ?Hb (alter_const_insert _ _ client) //..].
      * by eapply index_sound_update.
      * by apply index_sound_join.
  - unfold on_close in Hstep.
    destruct (handleDisconnect_state client st) as (Hcl & Hw & Hb).
    destruct (handleDisconnect client st) as [st1 out1]. simplify_eq. simpl in *.
    split; [done|rewrite Hcl ?Hw ?Hb..]; by apply index_sound_disconnect.
  - unfold on_error in Hstep. by simplify_eq.
  - case_decide; [|done]. simplify_eq.
    split; [done|simpl..]; by eapply index_sound_update.
Qed.

Lemma reachable_sound P st : reachable_by P st → sound st.
Proof.
  induction 1 as [|st ev st' out _ IH _ Hstep].
  - split; [by intros k c|split..]; try done.
    all: by intros ? ? ? (? & ? & ?).
  - by eapply step_sound.
Qed.

(** X1: on a run in which every join frame carries a string for its room
    id, and not the empty one, the two representations of membership agree
    for every registered connection, every member of a room is a registered
    connection, and no id is in two rooms of one flavour. *)
Theorem named_runs_keep_membership st :
  reachable_by named_joins st →
  (∀ k c W, clients st !! k = Some c →
            Client.workspaceId c = Some W ↔ member (workspaceClients st) W k) ∧
  (∀ k c B, clients st !! k = Some c →
            Client.boardId c = Some B ↔ member (boardClients st) B k) ∧
  (∀ W k, member (workspaceClients st) W k → is_Some (clients st !! k)) ∧
  (∀ B k, member (boardClients st) B k → is_Some (clients st !! k)) ∧
  (∀ k W1 W2, member (workspaceClients st) W1 k →
              member (workspaceClients st) W2 k → W1 = W2) ∧
  (∀ k B1 B2, member (boardClients st) B1 k →
              member (boardClients st) B2 k → B1 = B2).
Proof.
  intros [_ Hws Hbd]%reachable_consistent_joins. split_and!.
  - apply Hws.
  - apply Hbd.
  - apply Hws.
  - apply Hbd.
  - intros k W1 W2. by eapply index_consistent_one_room.
  - intros k B1 B2. by eapply index_consistent_one_room.
Qed.

(** Checks [string_joins] or [named_joins] on the events of a given run. *)
Local Ltac join_ok :=
  first
    [ exact I
    | split; intros Ht v Hv; vm_compute in Ht, Hv;
      first
        [ discriminate Ht
        | injection Hv as <-; eexists;
          first [reflexivity | split; [reflexivity|discriminate]] ] ].

Local Ltac joins_ok := repeat (apply Forall_cons_2; [join_ok|]); apply Forall_nil_2.

Lemma named_runs_keep_membership_witness :
  reachable_by named_joins (after two_rooms_run) ∧
  ∀ k W1 W2, member (workspaceClients (after two_rooms_run)) W1 k →
             member (workspaceClients (after two_rooms_run)) W2 k → W1 = W2.
Proof.
  assert (reachable_by named_joins (after two_rooms_run)) as Hreach.
  { apply after_reachable; [|by eexists; vm_compute].
    unfold two_rooms_run. joins_ok. }
  split; [done|].
  by destruct (named_runs_keep_membership _ Hreach) as (_ & _ & _ & _ & Hone & _).
Defined.

(** X2: on every run in which every join frame carries a string for its
    room id, the empty string or another: every registry entry is filed
    under its own id, a registered connection is a member of the room each
    of its fields names, no room of either index is empty, and every member
    of a room with a non-empty id is a registered connection whose field
    names that room. *)
Theorem named_rooms_sound st :
  reachable_by string_joins st →
  (∀ k c, clients st !! k = Some c → Client.id c = k) ∧
  (∀ k c W, clients st !! k = Some c → Client.workspaceId c = Some W →
            member (workspaceClients st) W k) ∧
  (∀ k c B, clients st !! k = Some c → Client.boardId c = Some B →
            member (boardClients st) B k) ∧
  (∀ W s, workspaceClients st !! W = Some s → s ≠ ∅) ∧
  (∀ B s, boardClients st !! B = Some s → s ≠ ∅) ∧
  (∀ W k, W ≠ "" → member (workspaceClients st) W k →
          ∃ c, clients st !! k = Some c ∧ Client.workspaceId c = Some W) ∧
  (∀ B k, B ≠ "" → member (boardClients st) B k →
          ∃ c, clients st !! k = Some c ∧ Client.boardId c = Some B).
Proof.
  intros [Hreg Hws Hbd]%reachable_sound. split_and!;
    [done|apply Hws|apply Hbd|apply Hws|apply Hbd|apply Hws|apply Hbd].
Qed.

Lemma named_rooms_sound_witness :
  reachable_by string_joins (after unnamed_then_w1) ∧
  ∀ W k, W ≠ "" → member (workspaceClients (after unnamed_then_w1)) W k →
         ∃ c, clients (after unnamed_then_w1) !! k = Some c ∧
              Client.workspaceId c = Some W.
Proof.
  assert (reachable_by string_joins (after unnamed_then_w1)) as Hreach.
  { apply after_reachable; [|by eexists; vm_compute].
    unfold unnamed_then_w1. joins_ok. }
  split; [done|].
  by destruct (named_rooms_sound _ Hreach) as (_ & _ & _ & _ & _ & Hnamed & _).
Defined.

(** ** The broadcast functions *)

Lemma broadcastToWorkspace_inbox st R msg ex r :
  registry_ok st →
  inbox r (broadcastToWorkspace st R msg ex)
  = if decide (r ∈ default ∅ (workspaceClients st !! R) ∧ Some r ≠ ex ∧ is_open st r)
    then [JSON_stringify msg] else [].
Proof.
  intros Hreg. rewrite broadcastToWorkspace_fanout //.
  destruct (workspaceClients st !! R) as [s|]; simpl.
  - apply inbox_fanout.
  - case_decide as Hin; [|done]. destruct Hin as [Hin _]. set_solver.
Qed.

Lemma broadcastToBoard_inbox st R msg ex r :
  registry_ok st →
  inbox r (broadcastToBoard st R msg ex)
  = if decide (r ∈ default ∅ (boardClients st !! R) ∧ Some r ≠ ex ∧ is_open st r)
    then [JSON_stringify msg] else [].
Proof.
  intros Hreg. rewrite broadcastToBoard_fanout //.
  destruct (boardClients st !! R) as [s|]; simpl.
  - apply inbox_fanout.
  - case_decide as Hin; [|done]. destruct Hin as [Hin _]. set_solver.
Qed.

(** X3: a broadcast to room [R] sends the serialized message exactly once to
    each member of [R] that is registered with an OPEN socket and is not the
    excluded id, and nothing to anybody else; a room that is not in the
    index gets nothing. Both flavours. *)
Theorem broadcast_inbox st R msg ex r :
  registry_ok st →
  inbox r (broadcastToWorkspace st R msg ex)
  = (if decide (r ∈ default ∅ (workspaceClients st !! R) ∧ Some r ≠ ex ∧ is_open st r)
     then [JSON_stringify msg] else []) ∧
  inbox r (broadcastToBoard st R msg ex)
  = (if decide (r ∈ default ∅ (boardClients st !! R) ∧ Some r ≠ ex ∧ is_open st r)
     then [JSON_stringify msg] else []).
Proof.
  intros Hreg. split; [by apply broadcastToWorkspace_inbox|by apply broadcastToBoard_inbox].
Qed.

Lemma broadcast_inbox_witness :
  let st := after two_rooms_run in
  registry_ok st ∧
  inbox "b" (broadcastToWorkspace st "w2" (mk_message "user_left" []) None) = [] ∧
  inbox "b" (broadcastToBoard st "b9" (mk_message "user_left" []) None) = [].
Proof.
  intros st.
  assert (registry_ok st) as Hreg.
  { apply (reachable_registry_ok (λ _, True)), after_reachable;
      [by repeat constructor|by eexists; vm_compute]. }
  destruct (broadcast_inbox st "w2" (mk_message "user_left" []) None "b" Hreg) as [Hw _].
  destruct (broadcast_inbox st "b9" (mk_message "user_left" []) None "b" Hreg) as [_ Hb].
  split; [done|]. split.
  - rewrite Hw. case_decide as Hin; [|done]. destruct Hin as (_ & _ & Hopen).
    vm_compute in Hopen. discriminate.
  - rewrite Hb. case_decide as Hin; [|done]. destruct Hin as (Hin & _).
    vm_compute in Hin. discriminate.
Defined.

(** ** The router *)

(** X6: only the two join types change the registry or a room index: a
    decoded frame whose [type] is neither [join_workspace] nor [join_board]
    leaves the three maps as they were, whatever its payload. *)
Theorem only_joins_change_state client m now st st' out :
  on_message client (Some m) now st = Some (st', out) →
  get m "type" ≠ Some (str "join_workspace") →
  get m "type" ≠ Some (str "join_board") →
  st' = st.
Proof.
  intros Hm Hw Hb. unfold on_message, handleMessage in Hm.
  destruct (broadcast_handlers_state client (default undefined (get m "payload")) now st)
    as (H1 & H2 & H3 & H4).
  destruct (get m "type") as [[| | | |t| |]|]; try by simplify_eq.
  destruct (decide (t = "join_workspace")) as [->|_]; [done|].
  destruct (decide (t = "join_board")) as [->|_]; [done|].
  repeat case_decide; simplify_eq; try done; by rewrite Hm in H1, H2, H3, H4.
Qed.

Lemma only_joins_change_state_witness :
  let st := after two_rooms_run in
  let m := mk_message "card_moved" [("cardId", str "c1")] in
  ∃ out, on_message (fresh_client "b") (Some m) 7 st = Some (st, out).
Proof.
  intros st m.
  destruct (on_message (fresh_client "b") (Some m) 7 st) as [[st' out]|] eqn:Hm;
    [|vm_compute in Hm; discriminate].
  exists out. f_equal. f_equal.
  apply (only_joins_change_state _ _ _ _ _ _ Hm); vm_compute; discriminate.
Defined.

(** ** Board events on the wire *)

Lemma lookup_spread_other k k0 u payload :
  k ≠ k0 →
  lookup_prop k (spread [(k0, u)] payload) = lookup_prop k (spread [] payload).
Proof. intros Hk. rewrite !lookup_spread /=. by rewrite decide_False. Qed.

Lemma card_message_fields type stamp u payload now :
  stamp ≠ "timestamp" →
  let m := JSON_stringify (mk_message type
             (set_prop "timestamp" (number now)
                (set_prop stamp (of_option u) (spread [] payload)))) in
  get m "type" = Some (str type) ∧
  wire_field m "timestamp" = number now ∧
  wire_field m stamp = of_option u ∧
  (∀ k, k ≠ "timestamp" → k ≠ stamp →
        wire_field m k = JSON_stringify (lookup_prop k (spread [] payload))).
Proof.
  intros Hstamp m.
  assert (NoDup (set_prop "timestamp" (number now)
                   (set_prop stamp (of_option u) (spread [] payload))).*1) as Hnd.
  { repeat apply set_prop_NoDup. apply spread_NoDup. constructor. }
  subst m. split_and!.
  - done.
  - rewrite wire_field_message; [done|]. rewrite lookup_set_prop. by case_decide.
  - rewrite wire_field_message; [done|]. rewrite !lookup_set_prop.
    repeat case_decide; try done. by destruct u.
  - intros k Hk1 Hk2. rewrite wire_field_message; [done|]. rewrite !lookup_set_prop.
    repeat case_decide; done.
Qed.

(** X4: for a sender whose board field holds a non-empty id [B],
    [card_moved] and [card_created] change no map and send one message to
    every member of [B] with an OPEN socket, the sender included. The
    relay's fields win over the payload's: [timestamp] is the relay's clock
    and [movedBy] ([createdBy]) the sender's [userId] field, whatever the
    payload says; every other property is the payload's own. *)
Theorem card_events_wire st client B payload now :
  registry_ok st → Client.boardId client = Some B → B ≠ "" →
  (∃ m, (handleCardMoved client payload now st).1 = st ∧
        get m "type" = Some (str "card_moved") ∧
        (∀ r, inbox r (handleCardMoved client payload now st).2
              = if decide (r ∈ default ∅ (boardClients st !! B) ∧ is_open st r)
                then [m] else []) ∧
        wire_field m "timestamp" = number now ∧
        wire_field m "movedBy" = of_option (Client.userId client) ∧
        (∀ k, k ≠ "timestamp" → k ≠ "movedBy" →
              wire_field m k = JSON_stringify (lookup_prop k (spread [] payload)))) ∧
  (∃ m, (handleCardCreated client payload now st).1 = st ∧
        get m "type" = Some (str "card_created") ∧
        (∀ r, inbox r (handleCardCreated client payload now st).2
              = if decide (r ∈ default ∅ (boardClients st !! B) ∧ is_open st r)
                then [m] else []) ∧
        wire_field m "timestamp" = number now ∧
        wire_field m "createdBy" = of_option (Client.userId client) ∧
        (∀ k, k ≠ "timestamp" → k ≠ "createdBy" →
              wire_field m k = JSON_stringify (lookup_prop k (spread [] payload)))).
Proof.
  intros Hreg HB HBn.
  assert (∀ r, (r ∈ default ∅ (boardClients st !! B) ∧ Some r ≠ None ∧ is_open st r)
               ↔ (r ∈ default ∅ (boardClients st !! B) ∧ is_open st r)) as Hall.
  { intros r. split; [by intros (? & _ & ?)|by intros [? ?]]. }
  unfold handleCardMoved, handleCardCreated. rewrite HB bool_decide_true //.
  cbn [fst snd]. split.
  - destruct (card_message_fields "card_moved" "movedBy" (Client.userId client)
                payload now) as (Ht & Hts & Hby & Hk); [done|].
    eexists. split; [done|]. split; [exact Ht|]. split; [|by split_and!].
    intros r. rewrite broadcastToBoard_inbox //. by apply decide_ext.
  - destruct (card_message_fields "card_created" "createdBy" (Client.userId client)
                payload now) as (Ht & Hts & Hby & Hk); [done|].
    eexists. split; [done|]. split; [exact Ht|]. split; [|by split_and!].
    intros r. rewrite broadcastToBoard_inbox //. by apply decide_ext.
Qed.

Lemma card_events_wire_witness :
  let payload := object [("cardId", str "c1"); ("timestamp", number 1);
                         ("movedBy", str "mallory")] in
  registry_ok two_on_board ∧
  ∃ m, (∀ r, inbox r (handleCardMoved board_member_a payload 7 two_on_board).2
             = if decide (r ∈ default ∅ (boardClients two_on_board !! "b1")
                          ∧ is_open two_on_board r)
               then [m] else []) ∧
       wire_field m "timestamp" = number 7 ∧
       wire_field m "movedBy" = undefined ∧
       wire_field m "cardId" = str "c1".
Proof.
  intros payload.
  assert (registry_ok two_on_board) as Hreg.
  { apply (reachable_registry_ok (λ _, True)), after_reachable;
      [by repeat constructor|by eexists; vm_compute]. }
  split; [done|].
  destruct (card_events_wire two_on_board board_member_a "b1" payload 7 Hreg eq_refl)
    as [(m & _ & _ & Hin & Hts & Hby & Hk) _]; [discriminate|].
  exists m. split_and!; [done|done|done|].
  rewrite Hk; [discriminate|discriminate|reflexivity].
Defined.

(** X5: for a sender whose board field holds a non-empty id [B],
    [user_typing] and [cursor_move] change no map and send one message to
    every member of [B] with an OPEN socket except the sender, and nothing to
    the sender. Every property of the message other than [userId] is the
    payload's own. *)
Theorem typing_events_wire st client B payload :
  registry_ok st → Client.boardId client = Some B → B ≠ "" →
  (∃ m, (handleUserTyping client payload st).1 = st ∧
        get m "type" = Some (str "user_typing") ∧
        (∀ r, inbox r (handleUserTyping client payload st).2
              = if decide (r ∈ default ∅ (boardClients st !! B)
                           ∧ r ≠ Client.id client ∧ is_open st r)
                then [m] else []) ∧
        (∀ k, k ≠ "userId" →
              wire_field m k = JSON_stringify (lookup_prop k (spread [] payload)))) ∧
  (∃ m, (handleCursorMove client payload st).1 = st ∧
        get m "type" = Some (str "cursor_move") ∧
        (∀ r, inbox r (handleCursorMove client payload st).2
              = if decide (r ∈ default ∅ (boardClients st !! B)
                           ∧ r ≠ Client.id client ∧ is_open st r)
                then [m] else []) ∧
        (∀ k, k ≠ "userId" →
              wire_field m k = JSON_stringify (lookup_prop k (spread [] payload)))).
Proof.
  intros Hreg HB HBn.
  assert (∀ r, (r ∈ default ∅ (boardClients st !! B)
                ∧ Some r ≠ Some (Client.id client) ∧ is_open st r)
               ↔ (r ∈ default ∅ (boardClients st !! B)
                  ∧ r ≠ Client.id client ∧ is_open st r)) as Hall.
  { intros r. split; intros (? & ? & ?); split_and!; try done; congruence. }
  assert (NoDup (spread [("userId", of_option (Client.userId client))] payload).*1) as Hnd.
  { apply spread_NoDup. repeat constructor. set_solver. }
  unfold handleUserTyping, handleCursorMove. rewrite HB bool_decide_true //.
  cbn [fst snd].
  split;
    [exists (JSON_stringify (mk_message "user_typing"
               (spread [("userId", of_option (Client.userId client))] payload)))
    |exists (JSON_stringify (mk_message "cursor_move"
               (spread [("userId", of_option (Client.userId client))] payload)))];
    (split; [done|]); (split; [reflexivity|]); split.
  - intros r. rewrite broadcastToBoard_inbox //. by apply decide_ext.
  - intros k Hk. rewrite wire_field_message // lookup_spread_other //.
  - intros r. rewrite broadcastToBoard_inbox //. by apply decide_ext.
  - intros k Hk. rewrite wire_field_message // lookup_spread_other //.
Qed.

Lemma typing_events_wire_witness :
  let payload := object [("field", str "title")] in
  registry_ok two_on_board ∧
  ∃ m, inbox "a" (handleUserTyping board_member_a payload two_on_board).2 = [] ∧
       inbox "b" (handleUserTyping board_member_a payload two_on_board).2 = [m] ∧
       wire_field m "field" = str "title".
Proof.
  intros payload.
  assert (registry_ok two_on_board) as Hreg.
  { apply (reachable_registry_ok (λ _, True)), after_reachable;
      [by repeat constructor|by eexists; vm_compute]. }
  split; [done|].
  destruct (typing_events_wire two_on_board board_member_a "b1" payload Hreg eq_refl)
    as [(m & _ & _ & Hin & Hk) _]; [discriminate|].
  exists m. split_and!.
  - rewrite Hin. case_decide as H; [|done]. by destruct H as (_ & Hne & _).
  - rewrite Hin. case_decide as H; [done|]. exfalso. apply H.
    split_and!; [|discriminate|].
    + apply (bool_decide_unpack _). by vm_compute.
    + vm_compute. reflexivity.
  - rewrite Hk; [discriminate|reflexivity].
Defined.

(** ** A whole session *)

Lemma leave_enter_fresh room cid (rooms : gmap string (gset string)) :
  room ≠ "" → cid ∉ default ∅ (rooms !! room) → rooms !! room ≠ Some ∅ →
  leave_room (Some room) cid (enter_room room cid rooms) = rooms.
Proof.
  intros Hroom Hcid Hne. apply map_eq. intros R.
  rewrite leave_room_lookup //.
  destruct (decide (R = room)) as [->|HR]; [|by rewrite enter_room_lookup decide_False].
  rewrite enter_room_lookup. destruct (decide (room = room)) as [_|?]; [|done].
  assert ((default ∅ (rooms !! room) ∪ {[cid]}) ∖ {[cid]} = default ∅ (rooms !! room))
    as -> by set_solver.
  destruct (rooms !! room) as [s|] eqn:Hs; simpl.
  - destruct (decide (s = ∅)) as [->|?]; [done|done].
  - by destruct (decide ((∅ : gset string) = ∅)).
Qed.

Lemma step_connection st cid :
  clients st !! cid = None →
  step (connection cid open_socket) st = Some (on_connection cid open_socket st).
Proof. intros Hc. by rewrite /= Hc. Qed.

Lemma step_close st cid client :
  clients st !! cid = Some client → step (close cid) st = Some (on_close client st).
Proof. intros Hc. by rewrite /= Hc. Qed.

(** X7: a session leaves no trace. From a state of a run, a new connection
    that joins a workspace and a board with non-empty ids and then closes
    leaves the registry and both room indexes exactly as they were before it
    connected. *)
Theorem session_leaves_no_trace st cid W B t1 t2 :
  sound st → clients st !! cid = None → W ≠ "" → B ≠ "" →
  ∃ out,
    run [connection cid open_socket; message cid (join_workspace W) t1;
         message cid (join_board B) t2; close cid] st
    = Some (st, out).
Proof.
  intros [Hreg Hws Hbd] Hc HW HB.
  set (c0 := fresh_client cid).
  set (c1 := Client.with_workspaceId (Some W) c0).
  set (c2 := Client.with_boardId (Some B) c1).
  destruct (on_connection cid open_socket st) as [st1 o1] eqn:H1.
  assert (clients st1 = <[cid := c0]> (clients st) ∧
          workspaceClients st1 = workspaceClients st ∧
          boardClients st1 = boardClients st) as (Hcl1 & Hw1 & Hb1).
  { unfold on_connection in H1. by simplify_eq. }
  assert (clients st1 !! cid = Some c0) as Hc0 by by rewrite Hcl1 lookup_insert_eq.
  destruct (handleJoinWorkspace c0 W st1) as [st2 o2] eqn:H2.
  pose proof (handleJoinWorkspace_state c0 W st1) as (Hcl2 & Hw2 & Hb2).
  rewrite H2 /= in Hcl2 Hw2 Hb2. fold c1 in Hcl2.
  assert (clients st2 !! cid = Some c1) as Hc1 by by rewrite Hcl2 lookup_alter_eq Hc0.
  destruct (handleJoinBoard c1 B st2) as [st3 o3] eqn:H3.
  pose proof (handleJoinBoard_state c1 B st2) as (Hcl3 & Hb3 & Hw3).
  rewrite H3 /= in Hcl3 Hw3 Hb3. fold c2 in Hcl3.
  assert (clients st3 !! cid = Some c2) as Hc2 by by rewrite Hcl3 lookup_alter_eq Hc1.
  destruct (handleDisconnect c2 st3) as [st4 o4] eqn:H4.
  pose proof (handleDisconnect_state c2 st3) as (Hcl4 & Hw4 & Hb4).
  rewrite H4 /= in Hcl4 Hw4 Hb4.
  assert (st4 = st) as Hst.
  { apply State_eq.
    - rewrite Hcl4 Hcl3 Hcl2 Hcl1. apply map_eq. intros k.
      destruct (decide (k = cid)) as [->|Hk].
      + by rewrite lookup_delete_eq Hc.
      + by rewrite lookup_delete_ne // !lookup_alter_ne // lookup_insert_ne.
    - rewrite Hw4 Hw3 Hw2 Hw1 /=. apply leave_enter_fresh; [done| |].
      + intros Hin. destruct (is_named _ _ _ Hws W cid HW) as (c & Hc' & _); [|congruence].
        destruct (workspaceClients st !! W) as [s|] eqn:Hs; [by exists s|set_solver].
      + intros Hs. by eapply is_nonempty in Hs.
    - rewrite Hb4 Hb3 Hb2 Hb1 /=. apply leave_enter_fresh; [done| |].
      + intros Hin. destruct (is_named _ _ _ Hbd B cid HB) as (c & Hc' & _); [|congruence].
        destruct (boardClients st !! B) as [s|] eqn:Hs; [by exists s|set_solver].
      + intros Hs. by eapply is_nonempty in Hs. }
  eexists. rewrite /run step_connection // H1.
  rewrite (step_join_workspace _ _ c0) // H2 (step_join_board _ _ c1) // H3.
  rewrite (step_close _ _ c2) // /on_close H4 Hst. done.
Qed.

Lemma session_leaves_no_trace_witness :
  sound (after two_rooms_run) ∧ clients (after two_rooms_run) !! "c" = None ∧
  ∃ out,
    run [connection "c" open_socket; message "c" (join_workspace "w2") 1;
         message "c" (join_board "b7") 2; close "c"] (after two_rooms_run)
    = Some (after two_rooms_run, out).
Proof.
  assert (sound (after two_rooms_run)) as Hs.
  { apply (reachable_sound (λ _, True)), after_reachable;
      [by repeat constructor|by eexists; vm_compute]. }
  assert (clients (after two_rooms_run) !! "c" = None) as Hc by (vm_compute; reflexivity).
  split; [done|]. split; [done|].
  apply (session_leaves_no_trace _ "c" "w2" "b7" 1 2 Hs Hc); discriminate.
Defined.

(** ** Who hears of a join *)

(** X8: a join is heard only in the room joined. A connection other than
    the joiner that is not in room [R] when [R] is joined is sent nothing;
    so the members of the room the joiner leaves behind are not told. Both
    flavours. *)
Theorem join_heard_only_in_joined_room st client R r :
  registry_ok st → r ≠ Client.id client →
  (r ∉ default ∅ (workspaceClients st !! R) →
   inbox r (handleJoinWorkspace client R st).2 = []) ∧
  (r ∉ default ∅ (boardClients st !! R) →
   inbox r (handleJoinBoard client R st).2 = []).
Proof.
  intros Hreg Hr.
  assert (∀ prev (rooms : gmap string (gset string)),
            r ∉ default ∅ (rooms !! R) →
            r ∉ default ∅ (leave_room prev (Client.id client) rooms !! R)
                ∪ {[Client.id client]}) as Hout.
  { intros prev rooms Hnot Hin. apply Hnot.
    pose proof (remaining_leave_room prev (Client.id client) rooms R) as Heq.
    assert (r ∈ default ∅ (leave_room prev (Client.id client) rooms !! R)
                ∖ {[Client.id client]}) as Hin' by set_solver.
    rewrite Heq in Hin'. set_solver. }
  split; intros Hnot.
  - pose proof (handleJoinWorkspace_out client R st) as Ho.
    pose proof (handleJoinWorkspace_state client R st) as (Hcl & Hw & _).
    destruct (handleJoinWorkspace client R st) as [st' out]. simpl in Hcl, Hw |- *.
    pose proof (registry_ok_alter st st' (Client.with_workspaceId (Some R) client)
                  Hreg Hcl) as Hreg'.
    rewrite broadcastToWorkspace_fanout // Hw enter_room_lookup decide_True // in Ho.
    subst out. erewrite inbox_notify_reply; [|done].
    rewrite decide_False //. case_decide as Hin; [|done].
    destruct Hin as [Hin _]. by eapply Hout in Hin.
  - pose proof (handleJoinBoard_out client R st) as Ho.
    pose proof (handleJoinBoard_state client R st) as (Hcl & Hb & _).
    destruct (handleJoinBoard client R st) as [st' out]. simpl in Hcl, Hb |- *.
    pose proof (registry_ok_alter st st' (Client.with_boardId (Some R) client)
                  Hreg Hcl) as Hreg'.
    rewrite broadcastToBoard_fanout // Hb enter_room_lookup decide_True // in Ho.
    subst out. erewrite inbox_notify_reply; [|done].
    rewrite decide_False //. case_decide as Hin; [|done].
    destruct Hin as [Hin _]. by eapply Hout in Hin.
Qed.

Lemma join_heard_only_in_joined_room_witness :
  let st := after [connection "a" open_socket; connection "b" open_socket;
                   message "a" (join_workspace "w1") 0;
                   message "b" (join_workspace "w1") 0] in
  registry_ok st ∧ "a" ≠ "b" ∧ ("a" ∉ default ∅ (workspaceClients st !! "w2")) ∧
  inbox "a" (handleJoinWorkspace w1_member_b "w2" st).2 = [].
Proof.
  intros st.
  assert (registry_ok st) as Hreg.
  { apply (reachable_registry_ok (λ _, True)), after_reachable;
      [by repeat constructor|by eexists; vm_compute]. }
  assert ("a" ∉ default ∅ (workspaceClients st !! "w2")) as Hnot.
  { intros Hin. vm_compute in Hin. discriminate. }
  split_and!; [done|discriminate|done|].
  by apply (join_heard_only_in_joined_room st w1_member_b "w2" "a" Hreg).
Defined.

(** ** The sibling handlers *)

(** X9: switching boards. For a registered connection in a consistent
    state and two different board ids, the first of them not empty: after
    [join_board(B1)] and [join_board(B2)] the connection is a member of
    exactly [B2]; [B1] is left with its other members, and is deleted from
    the index when there are none. *)
Theorem switch_board st cid B1 B2 t1 t2 :
  consistent st → is_Some (clients st !! cid) → B1 ≠ "" → B1 ≠ B2 →
  ∃ st2 out,
    run [message cid (join_board B1) t1; message cid (join_board B2) t2] st
    = Some (st2, out) ∧
    (∀ B, member (boardClients st2) B cid ↔ B = B2) ∧
    boardClients st2 !! B1
    = (let rest := default ∅ (boardClients st !! B1) ∖ {[cid]} in
       if decide (rest = ∅) then None else Some rest) ∧
    workspaceClients st2 = workspaceClients st.
Proof.
  intros [Hreg _ Hbd] [client Hc] HB1 Hne.
  pose proof (Hreg _ _ Hc) as Hid.
  destruct (handleJoinBoard client B1 st) as [st1 out1] eqn:H1.
  pose proof (handleJoinBoard_state client B1 st) as (Hcl1 & Hb1 & Hw1).
  rewrite H1 /= in Hcl1 Hb1 Hw1.
  set (client1 := Client.with_boardId (Some B1) client) in *.
  assert (clients st1 !! cid = Some client1) as Hc1.
  { by rewrite Hcl1 Hid lookup_alter_eq Hc. }
  destruct (handleJoinBoard client1 B2 st1) as [st2 out2] eqn:H2.
  pose proof (handleJoinBoard_state client1 B2 st1) as (_ & Hb2 & Hw2).
  rewrite H2 /= Hb1 Hid in Hb2. rewrite H2 /= Hw1 in Hw2.
  exists st2, (out1 ++ out2 ++ []). split.
  { rewrite /run (step_join_board _ _ client) // H1.
    by rewrite (step_join_board _ _ client1) // H2. }
  rewrite Hb2. split_and!; [|
    |done].
  - intros B. rewrite member_enter. split; [|by right].
    intros [Hm|[-> _]]; [|done]. exfalso.
    apply member_leave in Hm as [Hm Hn]; [|done].
    apply member_enter in Hm as [Hm|[-> _]]; [|by apply Hn].
    by eapply member_leave_self in Hm.
  - rewrite enter_room_lookup decide_False // leave_room_lookup // decide_True //.
    rewrite enter_room_lookup decide_True //=.
    replace ((default ∅ (leave_room (Client.boardId client) cid
                           (boardClients st) !! B1) ∪ {[cid]}) ∖ {[cid]})
      with (default ∅ (boardClients st !! B1) ∖ {[cid]}); [done|].
    rewrite -(remaining_leave_room (Client.boardId client)). set_solver.
Qed.

Lemma switch_board_witness :
  let st := after [connection "a" open_socket; connection "b" open_socket;
                   message "b" (join_board "b1") 0; message "a" (join_workspace "w1") 0] in
  consistent st ∧ is_Some (clients st !! "a") ∧ "b1" ≠ "" ∧ "b1" ≠ "b2" ∧
  ∃ st2 out,
    run [message "a" (join_board "b1") 1; message "a" (join_board "b2") 2] st
    = Some (st2, out) ∧
    (∀ B, member (boardClients st2) B "a" ↔ B = "b2") ∧
    boardClients st2 !! "b1"
    = (let rest := default ∅ (boardClients st !! "b1") ∖ {["a"]} in
       if decide (rest = ∅) then None else Some rest) ∧
    workspaceClients st2 = workspaceClients st.
Proof.
  intros st.
  assert (consistent st) as Hcons.
  { apply reachable_consistent, after_reachable; [|by eexists; vm_compute].
    repeat constructor; simpl; discriminate. }
  assert (is_Some (clients st !! "a")) as Hreg by (eexists; vm_compute; reflexivity).
  split_and!; [done|done|discriminate|discriminate|].
  apply (switch_board st "a" "b1" "b2" 1 2 Hcons Hreg); discriminate.
Defined.

(** X10: joining the same workspace twice. A second [join_workspace(W)]
    right after the first leaves the registry and both indexes exactly as
    the first join left them and makes the same sends again: the
    [user_joined] notification to every other open member of [W] and the
    [workspace_users] reply. *)
Theorem rejoin_workspace_repeats st cid W t1 t2 st1 out1 :
  registry_ok st →
  step (message cid (join_workspace W) t1) st = Some (st1, out1) →
  step (message cid (join_workspace W) t2) st1 = Some (st1, out1).
Proof.
  intros Hreg Hstep.
  destruct (clients st !! cid) as [client|] eqn:Hc; [|by rewrite /= Hc in Hstep].
  rewrite (step_join_workspace _ _ client) // in Hstep.
  assert (handleJoinWorkspace client W st = (st1, out1)) as Hj by congruence.
  clear Hstep. pose proof (Hreg _ _ Hc) as Hid.
  pose proof (handleJoinWorkspace_out client W st) as Hout.
  pose proof (handleJoinWorkspace_state client W st) as (Hcl & Hw & Hb).
  rewrite Hj /= in Hout Hcl Hb Hw.
  set (client1 := Client.with_workspaceId (Some W) client) in *.
  assert (clients st1 !! cid = Some client1) as Hc1.
  { by rewrite Hcl Hid lookup_alter_eq Hc. }
  rewrite (step_join_workspace _ _ client1) //. f_equal.
  pose proof (handleJoinWorkspace_out client1 W st1) as Hout2.
  pose proof (handleJoinWorkspace_state client1 W st1) as (Hcl2 & Hw2 & Hb2).
  destruct (handleJoinWorkspace client1 W st1) as [st2 out2]. simpl in Hcl2, Hb2, Hw2.
  assert (st2 = st1) as ->.
  { apply State_eq; [| |done].
    - rewrite Hcl2 /=. apply map_eq. intros k.
      destruct (decide (k = Client.id client)) as [->|Hne].
      + rewrite lookup_alter_eq Hid Hc1 /=. done.
      + by rewrite lookup_alter_ne.
    - rewrite Hw2 Hw /=. apply enter_leave_enter. }
  by rewrite Hout2 Hout.
Qed.

Lemma rejoin_workspace_repeats_witness :
  let st := after [connection "a" open_socket; connection "b" open_socket;
                   message "a" (join_workspace "w1") 0] in
  ∃ st1 out1,
    registry_ok st ∧
    step (message "b" (join_workspace "w1") 1) st = Some (st1, out1) ∧
    step (message "b" (join_workspace "w1") 2) st1 = Some (st1, out1) ∧
    inbox "a" out1 = [joined_workspace (fresh_client "b") "w1"].
Proof.
  intros st.
  assert (registry_ok st) as Hreg.
  { apply (reachable_registry_ok (λ _, True)), after_reachable;
      [by repeat constructor|by eexists; vm_compute]. }
  eassert (step (message "b" (join_workspace "w1") 1) st = Some (_, _)) as Hstep.
  { vm_compute. reflexivity. }
  eexists _, _. split; [done|]. split; [exact Hstep|]. split.
  - exact (rejoin_workspace_repeats st "b" "w1" 1 2 _ _ Hreg Hstep).
  - vm_compute. reflexivity.
Defined.

(** ** The client hook against the relay *)

(** X11: what the hook sends when its socket opens, or when its workspace
    or board changes, is accepted by the relay and keeps the membership
    invariant: every frame is a join of a room with a non-empty id, handled
    by the join handler of its flavour. *)
Theorem hook_joins_keep_invariant st cid client wsRef props frame now :
  consistent st → clients st !! cid = Some client →
  frame ∈ Hook.join_rooms wsRef props →
  ∃ st' out,
    step (message cid (Some frame) now) st = Some (st', out) ∧
    consistent st' ∧
    ((∃ w, Hook.workspaceId props = Some w ∧ w ≠ "" ∧
           (st', out) = handleJoinWorkspace client w st) ∨
     (∃ b, Hook.boardId props = Some b ∧ b ≠ "" ∧
           (st', out) = handleJoinBoard client b st)).
Proof.
  intros Hcons Hc Hin. unfold Hook.join_rooms, Hook.sendMessage in Hin.
  apply elem_of_app in Hin as [Hin|Hin].
  - destruct (Hook.workspaceId props) as [w|]; [|by apply elem_of_nil in Hin].
    case_bool_decide as Hw; [|by apply elem_of_nil in Hin].
    destruct wsRef as [[]|]; try by apply elem_of_nil in Hin.
    apply list_elem_of_singleton in Hin as ->.
    destruct (handleJoinWorkspace client w st) as [st' out] eqn:Hj.
    assert (step (message cid (join_workspace w) now) st = Some (st', out)) as Hstep.
    { by rewrite (step_join_workspace _ _ client) // Hj. }
    exists st', out. split; [exact Hstep|]. split; [|left; eauto].
    eapply step_consistent; [done| |exact Hstep].
    simpl. split; [congruence|discriminate].
  - destruct (Hook.boardId props) as [b|]; [|by apply elem_of_nil in Hin].
    case_bool_decide as Hb; [|by apply elem_of_nil in Hin].
    destruct wsRef as [[]|]; try by apply elem_of_nil in Hin.
    apply list_elem_of_singleton in Hin as ->.
    destruct (handleJoinBoard client b st) as [st' out] eqn:Hj.
    assert (step (message cid (join_board b) now) st = Some (st', out)) as Hstep.
    { by rewrite (step_join_board _ _ client) // Hj. }
    exists st', out. split; [exact Hstep|]. split; [|right; eauto].
    eapply step_consistent; [done| |exact Hstep].
    simpl. split; [discriminate|congruence].
Qed.

Lemma hook_joins_keep_invariant_witness :
  let st := after [connection "a" open_socket] in
  consistent st ∧ clients st !! "a" = Some (fresh_client "a") ∧
  ∃ frame st' out,
    frame ∈ Hook.join_rooms (Some OPEN) board_page_props ∧
    step (message "a" (Some frame) 0) st = Some (st', out) ∧ consistent st'.
Proof.
  intros st.
  assert (consistent st) as Hcons.
  { apply reachable_consistent, after_reachable; [|by eexists; vm_compute].
    repeat constructor; simpl; discriminate. }
  assert (clients st !! "a" = Some (fresh_client "a")) as Hc by (vm_compute; reflexivity).
  split; [done|]. split; [done|].
  assert (mk_message "join_board" [("boardId", str "b1")]
          ∈ Hook.join_rooms (Some OPEN) board_page_props) as Hin.
  { unfold Hook.join_rooms. apply elem_of_app. right. apply list_elem_of_here. }
  destruct (hook_joins_keep_invariant st "a" (fresh_client "a") (Some OPEN)
              board_page_props _ 0 Hcons Hc Hin) as (st' & out & Hstep & Hcons' & _).
  by exists (mk_message "join_board" [("boardId", str "b1")]), st', out.
Defined.

(** X12: a card move, end to end. The frame that the hook's
    [broadcastCardMoved] sends on an open socket, handled by the relay for a
    registered sender whose board field holds a non-empty id [B], changes no
    map and reaches every member of [B] with an OPEN socket, the sender
    included, exactly once, as [card_moved] with the three fields unchanged
    and the relay's clock as [timestamp]; nobody else is sent anything. *)
Theorem hook_card_moved_delivered st cid client B cardId columnId position now frame :
  reachable st → clients st !! cid = Some client →
  Client.boardId client = Some B → B ≠ "" →
  frame ∈ Hook.broadcastCardMoved (Some OPEN) cardId columnId position →
  ∃ out,
    step (message cid (Some frame) now) st = Some (st, out) ∧
    ∀ r, inbox r out
         = if decide (r ∈ default ∅ (boardClients st !! B) ∧ is_open st r)
           then [mk_message "card_moved"
                   [("cardId", str cardId); ("columnId", str columnId);
                    ("position", number position); ("timestamp", number now)]]
           else [].
Proof.
  intros Hreach Hc HB HBn Hin.
  pose proof (reachable_registry_ok _ _ Hreach) as Hreg.
  pose proof (reachable_no_user _ _ Hreach _ _ Hc) as Hu.
  apply list_elem_of_singleton in Hin as ->.
  eexists. split.
  - rewrite /= Hc /=. unfold on_message, handleMessage. simpl.
    unfold handleCardMoved. rewrite HB bool_decide_true //.
  - intros r. rewrite broadcastToBoard_inbox // Hu.
    apply decide_ext. split; [by intros (? & _ & ?)|by intros [? ?]].
Qed.

Lemma hook_card_moved_delivered_witness :
  reachable two_on_board ∧ clients two_on_board !! "a" = Some board_member_a ∧
  ∃ frame out,
    frame ∈ Hook.broadcastCardMoved (Some OPEN) "c1" "col2" 0 ∧
    step (message "a" (Some frame) 7) two_on_board = Some (two_on_board, out) ∧
    inbox "b" out
    = [mk_message "card_moved"
         [("cardId", str "c1"); ("columnId", str "col2");
          ("position", number 0); ("timestamp", number 7)]].
Proof.
  assert (reachable two_on_board) as Hreach.
  { apply after_reachable; [by repeat constructor|by eexists; vm_compute]. }
  assert (clients two_on_board !! "a" = Some board_member_a) as Hc
    by (vm_compute; reflexivity).
  split; [done|]. split; [done|].
  assert (mk_message "card_moved"
            [("cardId", str "c1"); ("columnId", str "col2"); ("position", number 0)]
          ∈ Hook.broadcastCardMoved (Some OPEN) "c1" "col2" 0) as Hin
    by apply list_elem_of_here.
  destruct (hook_card_moved_delivered two_on_board "a" board_member_a "b1"
              "c1" "col2" 0 7 _ Hreach Hc eq_refl ltac:(discriminate) Hin)
    as (out & Hstep & Hinbox).
  eexists _, out. split; [exact Hin|]. split; [exact Hstep|].
  rewrite Hinbox. case_decide as H; [done|]. exfalso. apply H. split.
  - apply (bool_decide_unpack _). by vm_compute.
  - vm_compute. reflexivity.
Defined.

(** ** Accepting a connection *)

(** X13: accepting a connection. From a state of a run, the connection
    listener registers the new client with no room in either field, sends it
    the [connected] message with its id and sends nobody else anything,
    leaves both room indexes as they were, and the new id is in no room with
    a non-empty id. *)
Theorem new_connection_in_no_room st cid ws st' out :
  sound st → step (connection cid ws) st = Some (st', out) →
  (∃ c, clients st' !! cid = Some c ∧ Client.id c = cid ∧
        Client.workspaceId c = None ∧ Client.boardId c = None ∧
        WebSocket.readyState (Client.ws c) = OPEN) ∧
  (∀ k, k ≠ cid → clients st' !! k = clients st !! k) ∧
  workspaceClients st' = workspaceClients st ∧
  boardClients st' = boardClients st ∧
  (∀ r, inbox r out
        = if decide (r = cid)
          then [mk_message "connected" [("clientId", str cid)]] else []) ∧
  (∀ R, R ≠ "" → ¬ member (workspaceClients st') R cid ∧
                 ¬ member (boardClients st') R cid).
Proof.
  intros [Hreg Hws Hbd] Hstep. simpl in Hstep.
  destruct (clients st !! cid) as [c0|] eqn:Hc; [done|].
  case_decide as Hopen; [|done]. unfold on_connection in Hstep. simplify_eq.
  simpl. split_and!; [| |done|done| |].
  - eexists. rewrite lookup_insert_eq. by split_and!.
  - intros k Hk. by rewrite lookup_insert_ne.
  - intros r. destruct (decide (cid = r)) as [->|Hne].
    + by destruct (decide (r = r)).
    + destruct (decide (r = cid)); [congruence|done].
  - intros R HR. split; intros Hm.
    + destruct (is_named _ _ _ Hws R cid HR Hm) as (c & Hc' & _). congruence.
    + destruct (is_named _ _ _ Hbd R cid HR Hm) as (c & Hc' & _). congruence.
Qed.

Lemma new_connection_in_no_room_witness :
  sound (after two_rooms_run) ∧
  ∃ st' out,
    step (connection "c" open_socket) (after two_rooms_run) = Some (st', out) ∧
    inbox "c" out = [mk_message "connected" [("clientId", str "c")]] ∧
    inbox "b" out = [] ∧
    ¬ member (workspaceClients st') "w2" "c".
Proof.
  assert (sound (after two_rooms_run)) as Hs.
  { apply (reachable_sound (λ _, True)), after_reachable;
      [by repeat constructor|by eexists; vm_compute]. }
  split; [done|].
  eassert (step (connection "c" open_socket) (after two_rooms_run) = Some (_, _)) as Hstep.
  { vm_compute. reflexivity. }
  destruct (new_connection_in_no_room _ _ _ _ _ Hs Hstep)
    as (_ & _ & _ & _ & Hin & Hno).
  eexists _, _. split; [exact Hstep|]. split_and!.
  - by rewrite Hin.
  - by rewrite Hin.
  - apply Hno. discriminate.
Defined.

(** ** A join without a payload *)

(** X14: a [join_workspace] or [join_board] frame whose [payload] is missing
    or [null] makes [handleMessage] throw while it reads the room id; the
    listener catches it: one log line, no map changed, nothing sent. *)
Theorem join_without_payload_dropped client m t now st :
  get m "type" = Some (str t) → t = "join_workspace" ∨ t = "join_board" →
  get m "payload" = Some undefined ∨ get m "payload" = Some null →
  on_message client (Some m) now st = Some (st, [log "Invalid message format:"]).
Proof.
  intros Ht Hjoin Hp. unfold on_message, handleMessage. rewrite Ht.
  destruct Hjoin as [-> | ->]; destruct Hp as [-> | ->]; reflexivity.
Qed.

Lemma join_without_payload_dropped_witness :
  let m := object [("type", str "join_board")] in
  get m "type" = Some (str "join_board") ∧ get m "payload" = Some undefined ∧
  on_message (fresh_client "a") (Some m) 0 (after [connection "a" open_socket])
  = Some (after [connection "a" open_socket], [log "Invalid message format:"]).
Proof.
  intros m. split; [reflexivity|]. split; [reflexivity|].
  apply (join_without_payload_dropped (fresh_client "a") m "join_board" 0
           (after [connection "a" open_socket]) eq_refl); [by right|by left].
Defined.
